(** * reformat.py: text normalisation and per-file processing

    A shallow embedding of [src/reformat.py].  Python [str] values are
    lists of code points, [bytes] values are lists of [Byte.byte], the file
    system is a finite map from paths to contents, and the effects of
    [process_file] and [main] (writes, printed lines, [git add]) are threaded
    explicitly as a world and a trace of events. *)

From Stdlib Require Import ZArith NArith Ascii String Strings.Byte List Lia Bool.
From stdpp Require Import base list strings gmap.

Local Open Scope N_scope.

(** ** Python [str] primitives used by the script *)

Module Str.

(** A character is a Unicode code point; a [str] is a sequence of them. *)
Definition char := N.
Definition str := list char.

Definition TAB : char := 9.
Definition LF : char := 10.
Definition CR : char := 13.
Definition SP : char := 32.

(** An ASCII literal as a [str]. *)
Definition txt (s : string) : str :=
  map (fun a => N_of_ascii a) (list_ascii_of_string s).

(** [c in chars] *)
Definition mem (c : char) (chars : str) : bool :=
  existsb (N.eqb c) chars.

(** [s.startswith(p)] *)
Fixpoint startswith (p s : str) : bool :=
  match p, s with
  | [], _ => true
  | _ :: _, [] => false
  | a :: p', b :: s' => (a =? b) && startswith p' s'
  end.

(** [s.endswith(p)] *)
Definition endswith (p s : str) : bool :=
  startswith (rev p) (rev s).

(** [s * n]: an [n] that is zero or negative gives the empty string. *)
Definition times (s : str) (n : Z) : str :=
  concat (replicate (Z.to_nat n) s).

(** The scan of [s.replace(old, new)] for a non-empty [old]: matches are
    taken left to right and do not overlap; [skip] counts the characters
    of the current match that are still to be passed over. *)
Fixpoint replace_from (old new : str) (skip : nat) (s : str) : str :=
  match s with
  | [] => []
  | c :: s' =>
      match skip with
      | S k => replace_from old new k s'
      | O =>
          if startswith old s
          then new ++ replace_from old new (length old - 1)%nat s'
          else c :: replace_from old new O s'
      end
  end.

(** [s.replace(old, new)]; an empty [old] matches before every character
    and at the end. *)
Definition replace (old new s : str) : str :=
  match old with
  | [] => new ++ flat_map (fun c => c :: new) s
  | _ :: _ => replace_from old new O s
  end.

(** [s.split(sep)] for a one-character separator: never an empty list. *)
Fixpoint split (sep : char) (s : str) : list str :=
  match s with
  | [] => [[]]
  | c :: s' =>
      if c =? sep then [] :: split sep s'
      else match split sep s' with
           | l :: ls => (c :: l) :: ls
           | [] => [[c]]
           end
  end.

(** [sep.join(ls)] *)
Fixpoint join (sep : str) (ls : list str) : str :=
  match ls with
  | [] => []
  | l :: ls' =>
      match ls' with
      | [] => l
      | _ :: _ => l ++ sep ++ join sep ls'
      end
  end.

(** [s.rstrip(chars)]: drop the longest suffix made of characters of
    [chars]. *)
Definition rstrip (chars : str) (s : str) : str :=
  fold_right
    (fun c acc =>
       match acc with
       | [] => if mem c chars then [] else [c]
       | _ :: _ => c :: acc
       end) [] s.

End Str.

Import Str.

(** ** Configuration *)

Definition INDENT_SIZE : Z := 4.

(** ** [normalize_text] *)

(** The [while] loop of the default mode: the index of the first character
    that is neither a space nor a tab. *)
Fixpoint leading_run (line : str) : nat :=
  match line with
  | c :: line' => if mem c [SP; TAB] then S (leading_run line') else O
  | [] => O
  end.

(** The first statement of the loop body, the tab conversion. *)
Definition tabs_to_spaces
    (indent_size : Z) (convert_tabs aggressive_tabs keep_tabs : bool)
    (line : str) : str :=
  if convert_tabs && negb keep_tabs then
    if aggressive_tabs then
      replace [TAB] (times [SP] indent_size) line
    else
      let i := leading_run line in
      let leading := replace [TAB] (times [SP] indent_size) (take i line) in
      leading ++ drop i line
  else line.

(** The body of the [for] loop: what becomes of one line. *)
Definition normalize_line
    (indent_size : Z) (convert_tabs aggressive_tabs keep_tabs : bool)
    (line : str) : str :=
  let line :=
    tabs_to_spaces indent_size convert_tabs aggressive_tabs keep_tabs line in
  rstrip [SP; TAB] line.

(** The newline normalisation of the first statement. *)
Definition unify_newlines (s : str) : str :=
  replace [CR] [LF] (replace [CR; LF] [LF] s).

Definition normalize_text
    (s : str) (indent_size : Z)
    (convert_tabs aggressive_tabs keep_tabs : bool) : str :=
  let s := unify_newlines s in
  let lines := split LF s in
  let out_lines :=
    map (normalize_line indent_size convert_tabs aggressive_tabs keep_tabs)
        lines in
  let text := join [LF] out_lines in
  if negb (endswith [LF] text) then text ++ [LF] else text.

(** ** Paths

    A [Path] is kept as the text [str(path)] gives for it, in normalised
    POSIX form; its characters are 7-bit, where [str.lower] is the ASCII
    lower-casing.  A path with other characters (where [str.lower] folds
    more than A to Z) is outside the model. *)

Module Path.

Definition path := string.

(** [c.lower()] on a 7-bit character. *)
Definition lower_ascii (c : ascii) : ascii :=
  let n := N_of_ascii c in
  if (65 <=? n) && (n <=? 90) then ascii_of_N (n + 32) else c.

(** [s.lower()] *)
Definition lower (s : string) : string :=
  string_of_list_ascii (map lower_ascii (list_ascii_of_string s)).

(** The characters after the last ["/"]. *)
Fixpoint name_chars (s : list ascii) : list ascii :=
  match s with
  | [] => []
  | c :: s' =>
      if existsb (Ascii.eqb "/") s' then name_chars s'
      else if Ascii.eqb c "/" then s' else c :: s'
  end.

(** [path.name]: the final component. *)
Definition name (p : path) : string :=
  string_of_list_ascii (name_chars (list_ascii_of_string p)).

(** [s.rfind(c)]: the last index of [c], [None] for Python's [-1]. *)
Fixpoint rfind (c : ascii) (s : list ascii) : option nat :=
  match s with
  | [] => None
  | x :: s' =>
      match rfind c s' with
      | Some i => Some (S i)
      | None => if Ascii.eqb x c then Some O else None
      end
  end.

(** [path.suffix]: the part of the name from its last dot, when that dot is
    neither the first nor the last character of the name. *)
Definition suffix (p : path) : string :=
  let nm := list_ascii_of_string (name p) in
  match rfind "." nm with
  | Some i =>
      if (0 <? i)%nat && (i <? length nm - 1)%nat
      then string_of_list_ascii (drop i nm)
      else EmptyString
  | None => EmptyString
  end.

End Path.

Import Path.

Definition MAKEFILE_NAMES : gset string :=
  {[ "Makefile"; "makefile"; "GNUmakefile" ]}%string.

Definition MAKEFILE_EXTS : gset string :=
  {[ ".mk"; ".mak" ]}%string.

Definition BINARY_EXTS : gset string :=
  list_to_set
    [ ".png"; ".jpg"; ".jpeg"; ".gif"; ".bmp"; ".ico"; ".pdf"; ".zip"; ".gz";
      ".bz2"; ".xz"; ".7z"; ".rar"; ".jar"; ".war"; ".ear"; ".class"; ".exe";
      ".dll"; ".pdb"; ".so"; ".dylib"; ".a"; ".o"; ".obj"; ".bin"; ".psd";
      ".ai"; ".sketch"; ".blend"; ".fbx"; ".glb"; ".glTF"; ".otf"; ".ttf";
      ".woff"; ".woff2"; ".eot"; ".wasm"; ".mp3"; ".mp4"; ".mov"; ".avi";
      ".mkv"; ".webm"; ".iso" ]%string.

(** ** Bytes and codecs *)

Module Codec.

Definition bytes := list byte.

Definition b2n (b : byte) : N := Byte.to_N b.

Definition n2b (n : N) : byte :=
  match Byte.of_N n with Some b => b | None => x00 end.

#[global] Instance byte_eq_dec : EqDecision byte := Byte.byte_eq_dec.

(** [a == b] on [bytes]. *)
Definition bytes_eqb (a b : bytes) : bool := bool_decide (a = b).

(** A continuation byte, [10xxxxxx]. *)
Definition is_cont (b : byte) : bool :=
  (128 <=? b2n b) && (b2n b <=? 191).

Definition is_surrogate (c : N) : bool :=
  (55296 <=? c) && (c <=? 57343).

(** [b.decode("utf-8")], strict: [None] stands for [UnicodeDecodeError].
    Overlong forms, surrogates and values above U+10FFFF are rejected. *)
Fixpoint utf8_decode (bs : bytes) : option str :=
  match bs with
  | [] => Some []
  | b0 :: r0 =>
      let n0 := b2n b0 in
      if n0 <? 128 then
        cons n0 <$> utf8_decode r0
      else if (192 <=? n0) && (n0 <? 224) then
        match r0 with
        | b1 :: r1 =>
            let c := (n0 - 192) * 64 + (b2n b1 - 128) in
            if is_cont b1 && (128 <=? c)
            then cons c <$> utf8_decode r1 else None
        | _ => None
        end
      else if (224 <=? n0) && (n0 <? 240) then
        match r0 with
        | b1 :: b2 :: r2 =>
            let c := (n0 - 224) * 4096 + (b2n b1 - 128) * 64
                     + (b2n b2 - 128) in
            if is_cont b1 && is_cont b2 && (2048 <=? c)
               && negb (is_surrogate c)
            then cons c <$> utf8_decode r2 else None
        | _ => None
        end
      else if (240 <=? n0) && (n0 <? 248) then
        match r0 with
        | b1 :: b2 :: b3 :: r3 =>
            let c := (n0 - 240) * 262144 + (b2n b1 - 128) * 4096
                     + (b2n b2 - 128) * 64 + (b2n b3 - 128) in
            if is_cont b1 && is_cont b2 && is_cont b3
               && (65536 <=? c) && (c <=? 1114111)
            then cons c <$> utf8_decode r3 else None
        | _ => None
        end
      else None
  end.

(** [b.decode("utf-8-sig")]: a leading byte-order mark is dropped. *)
Definition utf8_sig_decode (bs : bytes) : option str :=
  match bs with
  | xef :: xbb :: xbf :: r => utf8_decode r
  | _ => utf8_decode bs
  end.

(** The UTF-8 form of one code point; [None] for a surrogate, which
    [str.encode] refuses with [UnicodeEncodeError]. *)
Definition utf8_encode_char (c : char) : option bytes :=
  if c <? 128 then Some [n2b c]
  else if c <? 2048 then Some [n2b (192 + c / 64); n2b (128 + c mod 64)]
  else if c <? 65536 then
    if is_surrogate c then None
    else Some [n2b (224 + c / 4096); n2b (128 + (c / 64) mod 64);
               n2b (128 + c mod 64)]
  else if c <=? 1114111 then
    Some [n2b (240 + c / 262144); n2b (128 + (c / 4096) mod 64);
          n2b (128 + (c / 64) mod 64); n2b (128 + c mod 64)]
  else None.

(** [s.encode("utf-8")] *)
Fixpoint utf8_encode (s : str) : option bytes :=
  match s with
  | [] => Some []
  | c :: s' =>
      match utf8_encode_char c, utf8_encode s' with
      | Some b, Some bs => Some (b ++ bs)
      | _, _ => None
      end
  end.

(** [b.decode("latin-1")]: every byte is its own code point. *)
Definition latin1_decode (bs : bytes) : option str :=
  Some (map b2n bs).

(** [b.decode("ascii")] *)
Definition ascii_decode (bs : bytes) : option str :=
  if forallb (fun b => b2n b <? 128) bs then Some (map b2n bs) else None.

(** A hexadecimal digit, as the escape codecs read it. *)
Definition hex_digit (b : byte) : option N :=
  let n := b2n b in
  if (48 <=? n) && (n <=? 57) then Some (n - 48)
  else if (97 <=? n) && (n <=? 102) then Some (n - 87)
  else if (65 <=? n) && (n <=? 70) then Some (n - 55)
  else None.

(** The number a run of hexadecimal digits writes, after [acc]. *)
Fixpoint hex_value (ds : bytes) (acc : N) : option N :=
  match ds with
  | [] => Some acc
  | d :: ds' =>
      match hex_digit d with
      | Some v => hex_value ds' (acc * 16 + v)
      | None => None
      end
  end.

(** [b.decode("raw_unicode_escape")]: every byte is its own code point,
    but a backslash followed by [u] and four hexadecimal digits, or by [U]
    and eight, stands for the code point they write; a backslash followed
    by another byte (a second backslash too) stays, with that byte.  A cut
    or ill-formed escape and a value above U+10FFFF are
    [UnicodeDecodeError].  A surrogate is accepted. *)
Fixpoint raw_unicode_escape_decode (bs : bytes) : option str :=
  match bs with
  | [] => Some []
  | b :: r =>
      if negb (b2n b =? 92) then cons (b2n b) <$> raw_unicode_escape_decode r
      else
        match r with
        | [] => Some [92]
        | c :: r1 =>
            if b2n c =? 117 then
              match r1 with
              | h1 :: h2 :: h3 :: h4 :: r2 =>
                  match hex_value [h1; h2; h3; h4] 0 with
                  | Some ch => cons ch <$> raw_unicode_escape_decode r2
                  | None => None
                  end
              | _ => None
              end
            else if b2n c =? 85 then
              match r1 with
              | h1 :: h2 :: h3 :: h4 :: h5 :: h6 :: h7 :: h8 :: r2 =>
                  match hex_value [h1; h2; h3; h4; h5; h6; h7; h8] 0 with
                  | Some ch =>
                      if ch <=? 1114111
                      then cons ch <$> raw_unicode_escape_decode r2
                      else None
                  | None => None
                  end
              | _ => None
              end
            else
              (fun s => 92 :: b2n c :: s) <$> raw_unicode_escape_decode r1
        end
  end.

(** What a decoder makes of bytes: the text, [UnicodeDecodeError], or an
    exception of another class, given by its name. *)
Inductive decoded :=
| Text (s : str)
| DecodeError
| Raises (exc : string).

(** A decoder whose only failure is [UnicodeDecodeError]. *)
Definition strict (f : bytes -> option str) : bytes -> decoded :=
  fun bs => match f bs with Some s => Text s | None => DecodeError end.

(** [b.decode("undefined")]: the codec that refuses every input with
    [UnicodeError], which is not a [UnicodeDecodeError]. *)
Definition undefined_decode (bs : bytes) : decoded := Raises "UnicodeError".

(** A codec registry: the decoder an encoding name stands for, [None]
    when the name is not that of a text encoding ([bytes.decode] raises
    [LookupError] then). *)
Definition registry := string -> option (bytes -> decoded).

(** A registry with five encodings. *)
Definition small_registry : registry :=
  fun enc =>
    if String.eqb enc "latin-1" then Some (strict latin1_decode)
    else if String.eqb enc "ascii" then Some (strict ascii_decode)
    else if String.eqb enc "utf-8" then Some (strict utf8_decode)
    else if String.eqb enc "raw_unicode_escape"
    then Some (strict raw_unicode_escape_decode)
    else if String.eqb enc "undefined" then Some undefined_decode
    else None.

End Codec.

Import Codec.

(** ** Classification *)

Definition looks_binary_bytes (sample : bytes) : bool :=
  existsb (Byte.eqb x00) sample.

(** The size of the sample [raw[:8192]]. *)
Definition HEAD_SIZE : nat := N.to_nat 8192.

Definition is_potentially_text (p : path) (head : bytes) : bool :=
  if bool_decide (lower (suffix p) ∈ BINARY_EXTS) then false
  else negb (looks_binary_bytes head).

Definition is_makefile_like (p : path) : bool :=
  bool_decide (name p ∈ MAKEFILE_NAMES)
  || bool_decide (lower (suffix p) ∈ MAKEFILE_EXTS).

(** ** The world a run acts on *)

(** What a run does that can be seen from outside, in order. *)
Inductive event :=
| Print (line : string)              (* a line on standard output *)
| PrintErr (line : string)           (* a line on standard error *)
| WriteBytes (p : path) (data : bytes) (* a call of [path.write_bytes] *)
| GitAdd (p : path).                 (* [git add] of a path *)

(** The exceptions that leave [process_file] or [main]; [CodecError] is
    an exception of the named class that a decoder raised and that is not
    a [UnicodeDecodeError]. *)
Inductive exn :=
| LookupError (enc : string)
| CodecError (exc : string)
| UnicodeEncodeError
| CalledProcessError.

Inductive result (A : Type) :=
| Return (a : A)
| Raise (e : exn).
Arguments Return {A} a.
Arguments Raise {A} e.

(** The files that can be read, with their bytes, and for each path whether
    writing it fails (with the text of the exception).  Every path is a
    file of its own: two paths that name one file (a symbolic or a hard
    link) are outside the model, so nothing here says which other paths a
    write leaves alone. *)
Record world := World {
  files : gmap string bytes;
  write_error : path -> option string
}.

(** [path.read_bytes()]: [None] for any exception. *)
Definition read_bytes (p : path) (w : world) : option bytes :=
  files w !! p.

(** [path.write_bytes(data)]: the new world, or the text of the exception.
    What a failed write leaves on disk is outside the model, which keeps
    the old bytes. *)
Definition write_bytes (p : path) (data : bytes) (w : world)
  : world + string :=
  match write_error w p with
  | Some msg => inr msg
  | None => inl (World (<[p := data]> (files w)) (write_error w))
  end.

(** What a computation gives: its result, the world after it, and the
    events it produced. *)
Definition outcome (A : Type) : Type := result A * world * list event.

(** ** [process_file] *)

(** The three ways the decoding block ends. *)
Inductive decoding :=
| Decoded (s : str)
| Undecodable
| DecodeRaises (e : exn).

Section Platform.

(** The encodings the platform knows. *)
Variable codecs : registry.

(** [raw.decode(enc)] *)
Definition bytes_decode (raw : bytes) (enc : string) : decoding :=
  match codecs enc with
  | None => DecodeRaises (LookupError enc)
  | Some dec =>
      match dec raw with
      | Text s => Decoded s
      | DecodeError => Undecodable
      | Raises exc => DecodeRaises (CodecError exc)
      end
  end.

(** The [try] block: UTF-8 first, then the encoding of [recode_from] when
    that option is set and not the empty string. *)
Definition decode_raw (raw : bytes) (recode_from : option string)
  : decoding :=
  match utf8_sig_decode raw with
  | Some s => Decoded s
  | None =>
      match recode_from with
      | Some enc =>
          if String.eqb enc "" then Undecodable
          else bytes_decode raw enc
      | None => Undecodable
      end
  end.

(** The rest of [process_file] once the text is decoded: normalise, encode
    again, compare with what was read, and report or write. *)
Definition process_decoded
    (p : path) (raw : bytes) (decoded : str)
    (aggressive_tabs check_only restage : bool) (w : world)
  : outcome bool :=
  let keep_tabs := is_makefile_like p in
  let new_text :=
    normalize_text decoded INDENT_SIZE true aggressive_tabs keep_tabs in
  match utf8_encode new_text with
  | None => (Raise UnicodeEncodeError, w, [])
  | Some new_bytes =>
      if negb (bytes_eqb new_bytes raw) then
        if check_only then
          (Return true, w, [Print ("NEEDS-FIX " +:+ p)])
        else
          match write_bytes p new_bytes w with
          | inr e =>
              (Return false, w,
               [WriteBytes p new_bytes;
                PrintErr ("ERROR writing " +:+ p +:+ ": " +:+ e)])
          | inl w' =>
              (Return true, w',
               [WriteBytes p new_bytes]
               ++ (if restage then [GitAdd p] else [])
               ++ [Print ("Fixed " +:+ p)])
          end
      else (Return false, w, [])
  end.

Definition process_file
    (p : path) (recode_from : option string)
    (aggressive_tabs check_only restage : bool) (w : world)
  : outcome bool :=
  match read_bytes p w with
  | None => (Return false, w, [])
  | Some raw =>
      if negb (is_potentially_text p (take HEAD_SIZE raw)) then
        (Return false, w, [])
      else
        match decode_raw raw recode_from with
        | DecodeRaises e => (Raise e, w, [])
        | Undecodable => (Return false, w, [])
        | Decoded decoded =>
            process_decoded p raw decoded aggressive_tabs check_only
                            restage w
        end
  end.

(** ** [main] *)

Record args := Args {
  check : bool;
  staged : bool;
  restage : bool;
  recode_from : option string;
  aggressive_tabs : bool
}.

(** What git answers: the top level of the repository ([None] when the
    command fails), and the tracked and the staged paths. *)
Record git := Git {
  toplevel : option path;
  ls_files : option (list path);
  diff_cached : option (list path)
}.

Definition repo_root (g : git) : option path := toplevel g.

Definition list_tracked_files (g : git) (staged : bool)
  : option (list path) :=
  if staged then diff_cached g else ls_files g.

(** The [for] loop of [main], from the value [any_changes] has so far. *)
Fixpoint process_all
    (a : args) (ps : list path) (any_changes : bool) (w : world)
  : outcome bool :=
  match ps with
  | [] => (Return any_changes, w, [])
  | p :: rest =>
      if String.prefix ".git/" p then process_all a rest any_changes w
      else
        match process_file p (recode_from a) (aggressive_tabs a)
                           (check a) (restage a) w with
        | (Raise e, w1, t1) => (Raise e, w1, t1)
        | (Return changed, w1, t1) =>
            match process_all a rest (any_changes || changed) w1 with
            | (r, w2, t2) => (r, w2, t1 ++ t2)
            end
        end
  end.

Definition main (a : args) (g : git) (w : world) : outcome Z :=
  match repo_root g with
  | None =>
      (Return 2%Z, w, [PrintErr "Error: not inside a Git repository."])
  | Some _ =>
      match list_tracked_files g (staged a) with
      | None => (Raise CalledProcessError, w, [])
      | Some ps =>
          match ps with
          | [] => (Return 0%Z, w, [])
          | _ :: _ =>
              match process_all a ps false w with
              | (Raise e, w', t) => (Raise e, w', t)
              | (Return any_changes, w', t) =>
                  (Return (if check a && any_changes then 1%Z else 0%Z),
                   w', t)
              end
          end
      end
  end.

End Platform.

(** ** Notions the statements use *)

(** Newline unification as one pass over the text: a CR followed by LF
    becomes one LF, any other CR becomes LF, every other character stays. *)
Fixpoint unify_pass (s : str) : str :=
  match s with
  | [] => []
  | c :: s' =>
      if c =? CR then
        match s' with
        | d :: s'' => if d =? LF then LF :: unify_pass s''
                      else LF :: unify_pass s'
        | [] => [LF]
        end
      else c :: unify_pass s'
  end.

(** What replacing the one-character pattern [old] makes of a character. *)
Definition subst1 (old : char) (new : str) (x : char) : str :=
  if x =? old then new else [x].

(** A space or a tab. *)
Definition is_ws (c : char) : bool := mem c [SP; TAB].

(** A blank line: nothing but spaces and tabs, possibly nothing at all. *)
Definition blank (line : str) : bool := forallb is_ws line.

(** The number of tab characters of a text. *)
Definition count_tabs (s : str) : nat :=
  length (filter (fun c => c = TAB) s).


(** The value of [text] before the final newline is looked at. *)
Definition joined_text
    (s : str) (indent_size : Z)
    (convert_tabs aggressive_tabs keep_tabs : bool) : str :=
  join [LF]
    (map (normalize_line indent_size convert_tabs aggressive_tabs keep_tabs)
         (split LF (unify_newlines s))).

(** The lines of a text end in blank lines: after the first line or later
    there is a blank line, and what follows its LF is blank as well. *)
Definition trailing_blank_lines (lines : list str) : Prop :=
  ∃ pre l1 l2,
    lines = pre ++ [l1; l2] ∧ pre ≠ [] ∧ blank l1 = true ∧ blank l2 = true.

(** An outcome without effect: the file is passed over in silence, as it
    is when it cannot be read, is taken for binary, or cannot be decoded. *)
Definition skipped (o : outcome bool) (w : world) : Prop :=
  o = (Return false, w, []).


(** An event that asks git to stage a path. *)
Definition is_git_add (e : event) : bool :=
  match e with
  | GitAdd _ => true
  | _ => false
  end.

(** Whether the loop of [main] passes a path to [process_file]. *)
Definition listed (p : path) : bool := negb (String.prefix ".git/" p).



(** The byte-order mark of UTF-8. *)
Definition BOM_UTF8 : bytes := [xef; xbb; xbf].

(** ** A small repository

    Seven files: one with trailing whitespace, a clean one, two empty ones (one
    of them with the extension of an image), one in Latin-1, and two that
    cannot be written. *)

Definition sample_files : gmap string bytes :=
  list_to_map
    [ ("a.txt", [x78; x20; x0a]);
      ("ok.txt", [x6f; x6b; x0a]);
      ("empty.txt", []);
      ("logo.png", []);
      ("legacy.txt", [xe9; x0a]);
      ("ro.txt", [x78; x20; x0a]);
      ("ro-empty.txt", []) ]%string.

Definition sample_world : world :=
  World sample_files
        (fun p => if String.prefix "ro" p then Some "Permission denied"%string
                  else None).

Definition sample_git : git :=
  Git (Some "/repo"%string)
      (Some ["a.txt"; "ok.txt"; "logo.png"; "missing.txt"]%string)
      (Some ["ok.txt"]%string).

(** The seven bytes of a backslash, [ud800], and the byte FF: not UTF-8,
    and for [raw_unicode_escape] the surrogate U+D800 followed by U+00FF. *)
Definition surrogate_escape : bytes := [x5c; x75; x64; x38; x30; x30; xff].


Definition write_args : args := Args false false true None false.

(** ** Notions of the further properties *)

(** The characters of a text that are not white space of the kinds the
    script handles: it without its spaces, tabs, CRs and LFs. *)
Definition ink (s : str) : str :=
  List.filter (fun c => negb (mem c [SP; TAB; CR; LF])) s.

(** A line that the loop body leaves as it is: it does not end in a space
    or a tab and, where tabs are converted, has no tab at all (aggressive
    mode) or none in its leading run (default mode). *)
Definition line_normal (convert_tabs aggressive_tabs keep_tabs : bool)
    (line : str) : Prop :=
  rstrip [SP; TAB] line = line
  ∧ (if convert_tabs && negb keep_tabs then
       if aggressive_tabs then TAB ∉ line
       else TAB ∉ take (leading_run line) line
     else True).

(** A text in normal form: no CR, a final LF, and normal lines. *)
Definition normal_form (convert_tabs aggressive_tabs keep_tabs : bool)
    (s : str) : Prop :=
  (CR ∉ s)
  ∧ endswith [LF] s = true
  ∧ Forall (line_normal convert_tabs aggressive_tabs keep_tabs) (split LF s).

(** A line does not end in a space or a tab. *)
Definition no_trailing_ws (line : str) : Prop :=
  match last line with
  | Some c => is_ws c = false
  | None => True
  end.

(** U+FEFF, the character whose UTF-8 form is the byte-order mark. *)
Definition ZWNBSP : char := 65279.

(** A text does not begin with U+FEFF. *)
Definition no_leading_mark (s : str) : Prop := head s ≠ Some ZWNBSP.

(** The path a write or a [git add] is about. *)
Definition event_path (e : event) : option path :=
  match e with
  | WriteBytes p _ | GitAdd p => Some p
  | Print _ | PrintErr _ => None
  end.

(** Bytes as the script writes them: valid UTF-8, no CR byte, and a final
    LF byte. *)
Definition lf_utf8 (data : bytes) : Prop :=
  is_Some (utf8_decode data) ∧ (x0d ∉ data) ∧ ∃ d, data = d ++ [x0a].

(** The options of a run, as a dry run. *)
Definition as_check (a : args) : args :=
  Args true (staged a) (restage a) (recode_from a) (aggressive_tabs a).

(** [out.split(b"\x00")] of [list_tracked_files], on bytes. *)
Fixpoint split_bytes (sep : byte) (s : bytes) : list bytes :=
  match s with
  | [] => [[]]
  | c :: s' =>
      if Byte.eqb c sep then [] :: split_bytes sep s'
      else match split_bytes sep s' with
           | l :: ls => (c :: l) :: ls
           | [] => [[c]]
           end
  end.

(** The comprehension [[p for p in out.split(b"\x00") if p]] of
    [list_tracked_files]: the items of git's NUL-separated output, the
    empty ones left out. *)
Definition tracked_items (out : bytes) : list bytes :=
  List.filter (fun i => match i with [] => false | _ :: _ => true end)
              (split_bytes x00 out).

(** The output [git ls-files -z] gives for a list of names: each name
    followed by a NUL byte. *)
Definition z_output (items : list bytes) : bytes :=
  flat_map (fun i => i ++ [x00]) items.

(** A dry run with the options [a] finds nothing to do for [p] in the
    world [w]. *)
Definition quiet (codecs : registry) (a : args) (w : world) (p : path)
  : Prop :=
  process_file codecs p (recode_from a) (aggressive_tabs a) true (restage a) w
  = (Return false, w, []).

(** * Properties *)

(** ** The [str] primitives *)

Section StrFacts.

Implicit Types (c x : char) (s t p l : str) (ls : list str).

Lemma mem_true c chars : mem c chars = true ↔ c ∈ chars.
Proof.
  unfold mem. rewrite existsb_exists. split.
  - intros (y & Hy & E). apply N.eqb_eq in E. subst.
    by apply list_elem_of_In.
  - intros H. exists c. split; [by apply list_elem_of_In | apply N.eqb_refl].
Qed.

Lemma mem_false c chars : mem c chars = false ↔ c ∉ chars.
Proof.
  rewrite <- mem_true. destruct (mem c chars); split; congruence.
Qed.

Lemma startswith_spec p s : startswith p s = true ↔ ∃ t, s = p ++ t.
Proof.
  revert s. induction p as [|a p IH]; intros s; simpl.
  - split; eauto.
  - destruct s as [|b s].
    + split; [done | intros [t Ht]; discriminate].
    + rewrite andb_true_iff, N.eqb_eq, IH. split.
      * intros [-> [t ->]]. eauto.
      * intros [t Ht]. injection Ht as -> ->. eauto.
Qed.

Lemma endswith_spec p s : endswith p s = true ↔ ∃ t, s = t ++ p.
Proof.
  unfold endswith. rewrite startswith_spec. split.
  - intros [t Ht]. exists (rev t).
    rewrite <- (rev_involutive s), Ht, rev_app_distr.
    by rewrite rev_involutive.
  - intros [t ->]. exists (rev t). by rewrite rev_app_distr.
Qed.

Lemma endswith_snoc t p : endswith p (t ++ p) = true.
Proof. apply endswith_spec. eauto. Qed.

Lemma times_spaces n x : x ∈ times [SP] n → x = SP.
Proof.
  unfold times. induction (Z.to_nat n) as [|k IH]; simpl.
  - by intros ?%elem_of_nil.
  - intros [->|H]%elem_of_cons; [done | by apply IH].
Qed.

(** Replacing a one-character pattern acts on each character alone. *)
Lemma replace_single old new s :
  replace [old] new s = flat_map (subst1 old new) s.
Proof.
  unfold replace. induction s as [|x s IH]; [done|].
  cbn [replace_from startswith flat_map length Nat.sub].
  rewrite andb_true_r, N.eqb_sym. unfold subst1 at 1.
  destruct (x =? old); simpl; by rewrite IH.
Qed.

(** A pattern whose first character does not occur is never found. *)
Lemma replace_absent a old new s : a ∉ s → replace (a :: old) new s = s.
Proof.
  unfold replace. induction s as [|x s IH]; [done|].
  intros H. apply not_elem_of_cons in H as [Hx Hs].
  cbn [replace_from startswith].
  destruct (N.eqb_spec a x) as [->|_]; [done|].
  simpl. by rewrite IH.
Qed.

Lemma flat_map_subst1_absent old new s :
  old ∉ s → flat_map (subst1 old new) s = s.
Proof.
  induction s as [|x s IH]; [done|].
  intros [Hx Hs]%not_elem_of_cons. simpl. unfold subst1 at 1.
  destruct (N.eqb_spec x old) as [->|_]; [done|]. simpl. by rewrite IH.
Qed.

Lemma split_nonempty sep s : split sep s ≠ [].
Proof.
  destruct s as [|c s]; simpl; [done|].
  destruct (c =? sep); [done|]. by destruct (split sep s).
Qed.

Lemma split_cons_ne sep c s :
  c ≠ sep →
  ∃ l ls, split sep s = l :: ls ∧ split sep (c :: s) = (c :: l) :: ls.
Proof.
  intros Hc. simpl. destruct (N.eqb_spec c sep) as [|_]; [done|].
  destruct (split sep s) as [|l ls] eqn:E.
  - by apply split_nonempty in E.
  - eauto.
Qed.

Lemma join_cons sep l l' ls :
  join sep (l :: l' :: ls) = l ++ sep ++ join sep (l' :: ls).
Proof. done. Qed.

Lemma join_snoc sep ls l :
  ls ≠ [] → join sep (ls ++ [l]) = join sep ls ++ sep ++ l.
Proof.
  induction ls as [|a ls IH]; [done|]. intros _.
  destruct ls as [|b ls]; [done|].
  change ((a :: b :: ls) ++ [l]) with (a :: b :: (ls ++ [l])).
  rewrite !join_cons. change (b :: ls ++ [l]) with ((b :: ls) ++ [l]).
  rewrite IH by done. by rewrite <- !app_assoc.
Qed.

(** Splitting and joining again gives the text back. *)
Lemma join_split sep s : join [sep] (split sep s) = s.
Proof.
  induction s as [|c s IH]; [done|].
  destruct (N.eqb_spec c sep) as [->|Hc].
  - cbn [split]. rewrite N.eqb_refl.
    destruct (split sep s) as [|l ls] eqn:E;
      [by apply split_nonempty in E|].
    rewrite join_cons, IH. done.
  - destruct (split_cons_ne sep c s Hc) as (l & ls & E1 & E2).
    rewrite E2. rewrite E1 in IH.
    destruct ls; simpl in *; by rewrite IH.
Qed.

(** No line of a split holds the separator. *)
Lemma split_no_sep sep s : Forall (fun l => sep ∉ l) (split sep s).
Proof.
  induction s as [|c s IH]; simpl.
  - repeat constructor. by intros ?%elem_of_nil.
  - destruct (N.eqb_spec c sep) as [->|Hc].
    + constructor; [by intros ?%elem_of_nil | done].
    + destruct (split sep s) as [|l ls] eqn:E;
        [by apply split_nonempty in E|].
      inversion IH as [|? ? Hl Hls]; subst.
      constructor; [|done].
      intros [?|?]%elem_of_cons; [congruence | done].
Qed.

(** Joining lines free of the separator and splitting gives the lines
    back. *)
Lemma split_join sep ls :
  ls ≠ [] → Forall (fun l => sep ∉ l) ls →
  split sep (join [sep] ls) = ls.
Proof.
  induction ls as [|l ls IH]; [done|]. intros _ H.
  inversion H as [|? ? Hl Hls]; subst.
  destruct ls as [|l' ls].
  - simpl. clear IH H Hls. induction l as [|c l IHl]; [done|].
    apply not_elem_of_cons in Hl as [Hc Hl].
    simpl. destruct (N.eqb_spec c sep) as [|_]; [congruence|].
    by rewrite IHl.
  - rewrite join_cons. specialize (IH ltac:(done) Hls).
    clear H Hls. induction l as [|c l IHl].
    + cbn [app split]. rewrite N.eqb_refl. by rewrite IH.
    + apply not_elem_of_cons in Hl as [Hc Hl].
      change ((c :: l) ++ [sep] ++ join [sep] (l' :: ls))
        with (c :: (l ++ [sep] ++ join [sep] (l' :: ls))).
      cbn [split]. destruct (N.eqb_spec c sep) as [|_]; [congruence|].
      by rewrite IHl.
Qed.

Lemma elem_of_join x sep ls :
  x ∈ join sep ls → x ∈ sep ∨ ∃ l, l ∈ ls ∧ x ∈ l.
Proof.
  induction ls as [|l ls IH]; [by intros ?%elem_of_nil|].
  destruct ls as [|l' ls].
  - simpl. intros H. right. exists l. split; [left | done].
  - rewrite join_cons, !elem_of_app. intros [H|[H|H]].
    + right. exists l. split; [left | done].
    + by left.
    + destruct (IH H) as [?|(l0 & ? & ?)]; [by left|].
      right. exists l0. split; [by right | done].
Qed.

Lemma rstrip_cons chars c s :
  rstrip chars (c :: s) =
  match rstrip chars s with
  | [] => if mem c chars then [] else [c]
  | _ :: _ => c :: rstrip chars s
  end.
Proof. done. Qed.

Lemma rstrip_cons_keep chars c s :
  mem c chars = false → rstrip chars (c :: s) = c :: rstrip chars s.
Proof. intros H. rewrite rstrip_cons, H. by destruct (rstrip chars s). Qed.

Lemma rstrip_app_keep chars a c t :
  mem c chars = false →
  rstrip chars (a ++ c :: t) = a ++ c :: rstrip chars t.
Proof.
  intros H. induction a as [|x a IH]; simpl app.
  - by apply rstrip_cons_keep.
  - rewrite rstrip_cons, IH. by destruct a.
Qed.

(** What [rstrip] removes is a suffix made of the stripped characters. *)
Lemma rstrip_decomp chars s :
  ∃ t, s = rstrip chars s ++ t ∧ forallb (fun c => mem c chars) t = true.
Proof.
  induction s as [|c s (t & E & Ht)].
  - by exists [].
  - rewrite rstrip_cons. destruct (rstrip chars s) as [|y r] eqn:Er.
    + destruct (mem c chars) eqn:Ec.
      * exists (c :: s). split; [done|]. simpl in E. subst t.
        simpl. by rewrite Ec.
      * exists t. split; [|done]. simpl in *. by rewrite <- E.
    + exists t. split; [|done]. rewrite E at 1. done.
Qed.

Lemma rstrip_nil chars s :
  rstrip chars s = [] ↔ forallb (fun c => mem c chars) s = true.
Proof.
  induction s as [|c s IH]; [done|].
  rewrite rstrip_cons. cbn [forallb]. rewrite andb_true_iff, <- IH.
  destruct (rstrip chars s), (mem c chars); split;
    (done || (intros [? ?]; done) || auto).
Qed.

Lemma rstrip_idem chars s :
  rstrip chars (rstrip chars s) = rstrip chars s.
Proof.
  induction s as [|c s IH]; [done|].
  rewrite rstrip_cons. destruct (rstrip chars s) as [|y r] eqn:Er.
  - destruct (mem c chars) eqn:Ec; [done|].
    by rewrite rstrip_cons_keep.
  - rewrite rstrip_cons, IH. done.
Qed.

Lemma rstrip_elem chars s x : x ∈ rstrip chars s → x ∈ s.
Proof.
  intros H. destruct (rstrip_decomp chars s) as (t & E & _).
  rewrite E. apply elem_of_app. by left.
Qed.

Lemma forallb_is_ws_spaces s :
  (∀ x, x ∈ s → x = SP) → forallb is_ws s = true.
Proof.
  intros H. apply forallb_forall. intros x Hx%list_elem_of_In.
  by rewrite (H x Hx).
Qed.

(** The loop of the default mode stops at the first character that is
    not a space or a tab. *)
Lemma leading_run_take l : forallb is_ws (take (leading_run l) l) = true.
Proof.
  induction l as [|c l IH]; [done|]. cbn [leading_run].
  destruct (mem c [SP; TAB]) eqn:E; [|done].
  cbn [take forallb]. apply andb_true_iff. by split.
Qed.

Lemma leading_run_drop l :
  drop (leading_run l) l = [] ∨
  ∃ c t, drop (leading_run l) l = c :: t ∧ is_ws c = false.
Proof.
  induction l as [|c l IH]; [by left|]. cbn [leading_run].
  destruct (mem c [SP; TAB]) eqn:E; [done|].
  right. by exists c, l.
Qed.

Lemma leading_run_app a t :
  forallb is_ws a = true →
  (t = [] ∨ ∃ c t', t = c :: t' ∧ is_ws c = false) →
  leading_run (a ++ t) = length a.
Proof.
  intros Ha Ht. induction a as [|x a IH]; cbn [app leading_run length].
  - destruct Ht as [->|(c & t' & -> & Hc)]; [done|].
    cbn [leading_run]. unfold is_ws in Hc. by rewrite Hc.
  - cbn [forallb] in Ha. apply andb_true_iff in Ha as [Hx Ha].
    unfold is_ws in Hx. rewrite Hx. by rewrite IH.
Qed.

Lemma leading_run_blank l : blank l = true → leading_run l = length l.
Proof.
  intros H. rewrite <- (app_nil_r l) at 1.
  apply leading_run_app; [done | by left].
Qed.

End StrFacts.

(** ** Newline unification *)

Section UnifyFacts.

Implicit Types (c x : char) (s l : str).

Lemma list_ind2 {A} (P : list A → Prop) :
  P [] → (∀ a, P [a]) → (∀ a b k, P k → P (b :: k) → P (a :: b :: k)) →
  ∀ k, P k.
Proof.
  intros H0 H1 H2 k. cut (P k ∧ ∀ a, P (a :: k)); [by intros []|].
  induction k as [|b k [IH1 IH2]]; [by split|].
  split; [apply IH2|]. intros a. by apply H2.
Qed.

Lemma replace_crlf_hit s :
  replace [CR; LF] [LF] (CR :: LF :: s) = LF :: replace [CR; LF] [LF] s.
Proof. done. Qed.

Lemma replace_crlf_miss c s :
  startswith [CR; LF] (c :: s) = false →
  replace [CR; LF] [LF] (c :: s) = c :: replace [CR; LF] [LF] s.
Proof. intros H. unfold replace. cbn [replace_from]. by rewrite H. Qed.

(** The two replacements together are the one pass. *)
Lemma unify_newlines_pass s : unify_newlines s = unify_pass s.
Proof.
  unfold unify_newlines. rewrite replace_single.
  induction s as [|x|x y l IH1 IH2] using list_ind2.
  - done.
  - cbn [unify_pass]. rewrite replace_crlf_miss.
    + simpl. unfold subst1. by destruct (x =? CR).
    + cbn [startswith]. apply andb_false_r.
  - cbn [unify_pass]. destruct (N.eqb_spec x CR) as [->|Hx].
    + destruct (N.eqb_spec y LF) as [->|Hy].
      * rewrite replace_crlf_hit. cbn [flat_map].
        change (subst1 CR [LF] LF) with [LF]. rewrite IH1. reflexivity.
      * rewrite replace_crlf_miss.
        -- cbn [flat_map]. change (subst1 CR [LF] CR) with [LF].
           rewrite IH2. reflexivity.
        -- cbn [startswith].
           rewrite (proj2 (N.eqb_neq LF y)) by congruence.
           apply andb_false_r.
    + rewrite replace_crlf_miss.
      * cbn [flat_map]. unfold subst1 at 1.
        destruct (N.eqb_spec x CR); [done|]. rewrite IH2. reflexivity.
      * cbn [startswith]. by rewrite (proj2 (N.eqb_neq CR x)) by congruence.
Qed.

(** The pass keeps every character but CR, and may add LF. *)
Lemma unify_pass_elem s x : x ∈ unify_pass s → x = LF ∨ (x ∈ s ∧ x ≠ CR).
Proof.
  induction s as [|a|a b l IH1 IH2] using list_ind2.
  - by intros ?%elem_of_nil.
  - simpl. destruct (N.eqb_spec a CR) as [->|Ha].
    + intros ->%list_elem_of_singleton. by left.
    + intros ->%list_elem_of_singleton. right. split; [left | done].
  - cbn [unify_pass]. destruct (N.eqb_spec a CR) as [->|Ha].
    + destruct (N.eqb_spec b LF) as [->|Hb].
      * intros [->|H]%elem_of_cons; [by left|].
        destruct (IH1 H) as [?|[? ?]]; [by left|].
        right. split; [by do 2 right | done].
      * intros [->|H]%elem_of_cons; [by left|].
        destruct (IH2 H) as [?|[? ?]]; [by left|].
        right. split; [by right | done].
    + intros [->|H]%elem_of_cons.
      * right. split; [left | done].
      * destruct (IH2 H) as [?|[? ?]]; [by left|].
        right. split; [by right | done].
Qed.

Lemma unify_newlines_no_cr s : CR ∉ unify_newlines s.
Proof.
  rewrite unify_newlines_pass.
  intros [?|[_ ?]]%unify_pass_elem; done.
Qed.

(** A text without CR is left as it is. *)
Lemma unify_newlines_id s : CR ∉ s → unify_newlines s = s.
Proof.
  intros H. unfold unify_newlines.
  rewrite (replace_absent CR [LF] [LF] s H).
  by apply replace_absent.
Qed.

End UnifyFacts.

(** ** One line *)

Section LineFacts.

Variables (n : Z) (cv ag kp : bool).
Implicit Types (c x : char) (l : str).

Local Notation "'expand'" := (flat_map (subst1 TAB (times [SP] n))).

Lemma expand_elem l x : x ∈ expand l → (x ∈ l ∧ x ≠ TAB) ∨ x = SP.
Proof.
  induction l as [|c l IH]; [by intros ?%elem_of_nil|].
  cbn [flat_map]. intros [H|H]%elem_of_app.
  - unfold subst1 in H. destruct (N.eqb_spec c TAB) as [->|Hc].
    + right. by apply times_spaces in H.
    + apply list_elem_of_singleton in H as ->. left. split; [left | done].
  - destruct (IH H) as [[? ?]|?]; [|by right].
    left. split; [by right | done].
Qed.

Lemma expand_no_tab l : TAB ∉ l → expand l = l.
Proof. apply flat_map_subst1_absent. Qed.

Lemma expand_ws l : forallb is_ws l = true → ∀ x, x ∈ expand l → x = SP.
Proof.
  intros Hl x [[Hx Ht]|Hx]%expand_elem; [|done].
  rewrite forallb_forall in Hl.
  specialize (Hl x (proj1 (list_elem_of_In _ _) Hx)).
  unfold is_ws in Hl. apply mem_true in Hl.
  apply elem_of_cons in Hl as [?|Hl]; [done|].
  by apply list_elem_of_singleton in Hl.
Qed.

Lemma spaces_no_tab l : (∀ x, x ∈ l → x = SP) → TAB ∉ l.
Proof. intros H Ht. by specialize (H _ Ht). Qed.

Lemma tabs_to_spaces_off l :
  cv && negb kp = false → tabs_to_spaces n cv ag kp l = l.
Proof. unfold tabs_to_spaces. by intros ->. Qed.

Lemma tabs_to_spaces_aggressive l :
  tabs_to_spaces n true true false l = expand l.
Proof. unfold tabs_to_spaces. cbn [andb negb]. apply replace_single. Qed.

Lemma tabs_to_spaces_default l :
  tabs_to_spaces n true false false l =
  expand (take (leading_run l) l) ++ drop (leading_run l) l.
Proof.
  unfold tabs_to_spaces. cbn [andb negb]. by rewrite replace_single.
Qed.

(** The conversion keeps the characters of the line, tabs apart, and adds
    nothing but spaces. *)
Lemma tabs_to_spaces_elem l x :
  x ∈ tabs_to_spaces n cv ag kp l → x ∈ l ∨ x = SP.
Proof.
  destruct (cv && negb kp) eqn:E.
  - apply andb_true_iff in E as [-> ->%negb_true_iff]. destruct ag.
    + rewrite tabs_to_spaces_aggressive.
      intros [[? _]|?]%expand_elem; auto.
    + rewrite tabs_to_spaces_default.
      intros [[[H _]|?]%expand_elem|H]%elem_of_app; auto; left;
        rewrite <- (take_drop (leading_run l) l); apply elem_of_app; auto.
  - rewrite tabs_to_spaces_off; auto.
Qed.

Lemma normalize_line_elem l x :
  x ∈ normalize_line n cv ag kp l → x ∈ l ∨ x = SP.
Proof.
  unfold normalize_line. intros H%rstrip_elem.
  by apply tabs_to_spaces_elem.
Qed.

Lemma normalize_line_no_lf l : LF ∉ l → LF ∉ normalize_line n cv ag kp l.
Proof. intros H [?|?]%normalize_line_elem; done. Qed.

(** A blank line is made empty, and only a blank line is. *)
Lemma tabs_to_spaces_blank l :
  blank (tabs_to_spaces n cv ag kp l) = blank l.
Proof.
  destruct (cv && negb kp) eqn:E; [|by rewrite tabs_to_spaces_off].
  apply andb_true_iff in E as [-> ->%negb_true_iff].
  assert (Hex : ∀ k, blank (expand k) = blank k).
  { induction k as [|c k IH]; [done|].
    cbn [flat_map]. unfold blank in *. rewrite forallb_app.
    cbn [forallb]. rewrite IH. f_equal. unfold subst1.
    destruct (N.eqb_spec c TAB) as [->|Hc].
    - change (is_ws TAB) with true.
      apply forallb_is_ws_spaces, times_spaces.
    - simpl. apply andb_true_r. }
  destruct ag.
  - by rewrite tabs_to_spaces_aggressive.
  - rewrite tabs_to_spaces_default. unfold blank in *.
    rewrite forallb_app, Hex, <- forallb_app. by rewrite take_drop.
Qed.

Lemma normalize_line_nil l :
  normalize_line n cv ag kp l = [] ↔ blank l = true.
Proof.
  unfold normalize_line. rewrite rstrip_nil.
  rewrite <- (tabs_to_spaces_blank l). reflexivity.
Qed.

(** One more pass leaves a normalised line as it is. *)
Lemma normalize_line_idem l :
  normalize_line n cv ag kp (normalize_line n cv ag kp l)
  = normalize_line n cv ag kp l.
Proof.
  unfold normalize_line.
  destruct (cv && negb kp) eqn:E.
  2:{ rewrite !tabs_to_spaces_off by done. apply rstrip_idem. }
  apply andb_true_iff in E as [-> ->%negb_true_iff]. destruct ag.
  - rewrite !tabs_to_spaces_aggressive.
    rewrite (expand_no_tab (rstrip _ _)); [apply rstrip_idem|].
    intros [[_ ?]|?]%rstrip_elem%expand_elem; done.
  - rewrite (tabs_to_spaces_default l).
    pose proof (leading_run_take l) as Hws.
    set (e := expand (take (leading_run l) l)).
    assert (He : ∀ x, x ∈ e → x = SP) by by apply expand_ws.
    destruct (leading_run_drop l) as [->|(c & t & -> & Hc)].
    + rewrite app_nil_r.
      by rewrite (proj2 (rstrip_nil _ e) (forallb_is_ws_spaces e He)).
    + rewrite (rstrip_app_keep _ e c t Hc).
      rewrite tabs_to_spaces_default.
      rewrite (leading_run_app e (c :: rstrip [SP; TAB] t)).
      * rewrite take_app_length, drop_app_length.
        rewrite (expand_no_tab e) by by apply spaces_no_tab.
        rewrite (rstrip_app_keep _ e c _ Hc). by rewrite rstrip_idem.
      * by apply forallb_is_ws_spaces.
      * right. by exists c, (rstrip [SP; TAB] t).
Qed.

End LineFacts.

(** ** The whole text *)

Section TextFacts.

Variables (n : Z) (cv ag kp : bool).
Implicit Types (c x : char) (s l : str) (ls : list str).

Local Notation "'NL'" := (normalize_line n cv ag kp).

Lemma normalize_text_unfold s :
  normalize_text s n cv ag kp =
  if endswith [LF] (joined_text s n cv ag kp)
  then joined_text s n cv ag kp
  else joined_text s n cv ag kp ++ [LF].
Proof.
  unfold normalize_text, joined_text.
  by destruct (endswith [LF] _).
Qed.

Lemma elem_of_split sep s l x : l ∈ split sep s → x ∈ l → x ∈ s.
Proof.
  intros Hl Hx. rewrite <- (join_split sep s).
  revert Hl. generalize (split sep s). intros ls.
  induction ls as [|l0 ls IH]; [by intros ?%elem_of_nil|].
  intros [->|H]%elem_of_cons.
  - destruct ls; [done|]. rewrite join_cons. apply elem_of_app. by left.
  - destruct ls as [|l1 ls]; [by apply elem_of_nil in H|].
    rewrite join_cons, !elem_of_app. right. right. by apply IH.
Qed.

Lemma out_lines_nonempty s : map NL (split LF (unify_newlines s)) ≠ [].
Proof.
  intros H%map_eq_nil. by apply split_nonempty in H.
Qed.

Lemma out_lines_no_lf s :
  Forall (fun l => LF ∉ l) (map NL (split LF (unify_newlines s))).
Proof.
  apply List.Forall_map. eapply Forall_impl; [apply split_no_sep|].
  intros l Hl. by apply normalize_line_no_lf.
Qed.

(** The characters of the result: LF, a space, or a character of the
    input other than CR. *)
Lemma normalize_text_elem s x :
  x ∈ normalize_text s n cv ag kp → x = LF ∨ x = SP ∨ (x ∈ s ∧ x ≠ CR).
Proof.
  assert (Hj : x ∈ joined_text s n cv ag kp →
               x = LF ∨ x = SP ∨ (x ∈ s ∧ x ≠ CR)).
  { unfold joined_text. intros [H|(l & Hl & Hx)]%elem_of_join.
    - left. by apply list_elem_of_singleton in H.
    - apply list_elem_of_In, in_map_iff in Hl as (l0 & <- & Hl0).
      apply list_elem_of_In in Hl0.
      apply normalize_line_elem in Hx as [Hx|?]; [|by auto].
      pose proof (elem_of_split _ _ _ _ Hl0 Hx) as Hu.
      rewrite unify_newlines_pass in Hu.
      apply unify_pass_elem in Hu. tauto. }
  rewrite normalize_text_unfold.
  destruct (endswith [LF] _); [done|].
  intros [H|H]%elem_of_app; [by auto|].
  left. by apply list_elem_of_singleton in H.
Qed.

Lemma normalize_text_no_cr s : CR ∉ normalize_text s n cv ag kp.
Proof. intros [?|[?|[_ ?]]]%normalize_text_elem; done. Qed.

(** The lines of the result are the normalised lines of the input, with
    one empty line more when the final LF had to be added. *)
Lemma normalize_text_lines s :
  split LF (normalize_text s n cv ag kp) =
  map NL (split LF (unify_newlines s))
  ++ (if endswith [LF] (joined_text s n cv ag kp) then [] else [[]]).
Proof.
  rewrite normalize_text_unfold. unfold joined_text.
  pose proof (out_lines_nonempty s) as Hne.
  pose proof (out_lines_no_lf s) as Hlf.
  destruct (endswith [LF] _).
  - rewrite app_nil_r. by apply split_join.
  - rewrite <- (app_nil_r [LF]) at 2.
    rewrite <- (join_snoc [LF] _ []) by done.
    apply split_join.
    + by destruct (map NL _).
    + apply Forall_app. split; [done|].
      repeat constructor. by intros ?%elem_of_nil.
Qed.

Lemma normalize_text_ends_lf s :
  endswith [LF] (normalize_text s n cv ag kp) = true.
Proof.
  rewrite normalize_text_unfold.
  destruct (endswith [LF] (joined_text s n cv ag kp)) eqn:E;
    [done | apply endswith_snoc].
Qed.

Lemma normalize_text_idem s :
  normalize_text (normalize_text s n cv ag kp) n cv ag kp
  = normalize_text s n cv ag kp.
Proof.
  assert (Hj : joined_text (normalize_text s n cv ag kp) n cv ag kp
               = normalize_text s n cv ag kp).
  { unfold joined_text at 1.
    rewrite unify_newlines_id by apply normalize_text_no_cr.
    rewrite normalize_text_lines, map_app, map_map.
    rewrite (map_ext _ NL) by (intros; apply normalize_line_idem).
    rewrite normalize_text_unfold.
    destruct (endswith [LF] (joined_text s n cv ag kp)).
    - by rewrite app_nil_r.
    - change (map NL [[]]) with [NL []].
      rewrite (proj2 (normalize_line_nil n cv ag kp []) eq_refl).
      rewrite join_snoc by apply out_lines_nonempty.
      by rewrite app_nil_r. }
  rewrite (normalize_text_unfold (normalize_text s n cv ag kp)), Hj.
  by rewrite normalize_text_ends_lf.
Qed.

End TextFacts.

(** ** Final newline *)

Section FinalNewline.

Variables (n : Z) (cv ag kp : bool).
Implicit Types (s l t : str) (ls : list str).

Local Notation "'NL'" := (normalize_line n cv ag kp).

(** A joined text ends in LF only when its last line is empty and is not
    the only one. *)
Lemma join_ends_lf ls t :
  Forall (fun l => LF ∉ l) ls →
  join [LF] ls = t ++ [LF] →
  ∃ ls', ls' ≠ [] ∧ ls = ls' ++ [[]] ∧ join [LF] ls' = t.
Proof.
  intros Hlf E. destruct ls as [|l0 ls0] using rev_ind.
  { by destruct t. }
  clear IHls0. apply Forall_app in Hlf as [Hlf0 Hl0].
  inversion Hl0 as [|? ? Hl _]; subst.
  destruct l0 as [|z l0 _] using rev_ind.
  - destruct ls0 as [|a ls0].
    + by destruct t.
    + exists (a :: ls0). split; [done|]. split; [done|].
      rewrite join_snoc, app_nil_r in E by done.
      by apply app_inj_tail in E as [? _].
  - exfalso. destruct ls0 as [|a ls0].
    + simpl in E. apply app_inj_tail in E as [_ ->].
      apply Hl, elem_of_app. right. left.
    + rewrite join_snoc in E by done. rewrite !app_assoc in E.
      apply app_inj_tail in E as [_ ->].
      apply Hl, elem_of_app. right. left.
Qed.

Lemma join_two_blank ls :
  ls ≠ [] → join [LF] (ls ++ [[]; []]) = join [LF] ls ++ [LF; LF].
Proof.
  intros H. change (ls ++ [[]; []]) with (ls ++ [[]] ++ [[]]).
  rewrite app_assoc, join_snoc by by destruct ls.
  rewrite join_snoc by done. by rewrite !app_nil_r, <- app_assoc.
Qed.

(** The result ends in two LFs exactly when the lines of the input end
    in blank lines. *)
Lemma normalize_text_two_lf s :
  endswith [LF; LF] (normalize_text s n cv ag kp) = true
  ↔ trailing_blank_lines (split LF (unify_newlines s)).
Proof.
  rewrite normalize_text_unfold, endswith_spec. split.
  - intros [t Ht].
    destruct (endswith [LF] (joined_text s n cv ag kp)) eqn:E.
    + change [LF; LF] with ([LF] ++ [LF]) in Ht. rewrite app_assoc in Ht.
      unfold joined_text in Ht.
      apply join_ends_lf in Ht as (ls1 & Hne1 & E1 & J1);
        [|apply out_lines_no_lf].
      assert (Hlf1 : Forall (fun l => LF ∉ l) ls1).
      { pose proof (out_lines_no_lf n cv ag kp s) as H.
        rewrite E1 in H. by apply Forall_app in H as [? _]. }
      apply join_ends_lf in J1 as (ls2 & Hne2 & E2 & _); [|done].
      subst ls1. rewrite <- app_assoc in E1. simpl in E1.
      apply map_eq_app in E1 as (pre & post & Hs & Hpre & Hpost).
      destruct post as [|l1 [|l2 [|? ?]]]; try discriminate.
      injection Hpost as H1 H2.
      exists pre, l1, l2. split; [done|]. split.
      * intros ->. by subst ls2.
      * split; by eapply normalize_line_nil.
    + exfalso. change [LF; LF] with ([LF] ++ [LF]) in Ht.
      rewrite app_assoc in Ht. apply app_inj_tail in Ht as [Ht _].
      rewrite Ht, endswith_snoc in E. done.
  - intros (pre & l1 & l2 & Hs & Hne & B1 & B2).
    assert (J : joined_text s n cv ag kp
                = join [LF] (map NL pre) ++ [LF; LF]).
    { unfold joined_text. rewrite Hs, map_app. cbn [map].
      rewrite (proj2 (normalize_line_nil n cv ag kp l1) B1).
      rewrite (proj2 (normalize_line_nil n cv ag kp l2) B2).
      apply join_two_blank. by destruct pre. }
    rewrite J.
    change [LF; LF] with ([LF] ++ [LF]) at 1. rewrite app_assoc.
    rewrite endswith_snoc. by eexists.
Qed.

End FinalNewline.

(** ** The laws of the normaliser *)

(** C3: normalisation is idempotent.  For every text [T] and every
    configuration (indent size, tab conversion, aggressive flag, keep-tabs
    flag), normalising the normalised text gives the normalised text. *)
Theorem C3_normalize_idempotent
    (T : str) (indent_size : Z)
    (convert_tabs aggressive_tabs keep_tabs : bool) :
  normalize_text
    (normalize_text T indent_size convert_tabs aggressive_tabs keep_tabs)
    indent_size convert_tabs aggressive_tabs keep_tabs
  = normalize_text T indent_size convert_tabs aggressive_tabs keep_tabs.
Proof. apply normalize_text_idem. Qed.

(** C7: newline unification.  The two replacements of the first statement
    are one pass that turns every CR-LF pair and every other CR into one LF
    and keeps the rest.  [normalize_text] splits its lines from that text,
    before anything else is done: its result is the join of the normalised
    lines of the unified text, with one LF added when the join does not end
    in one, so its lines are the normalised lines of the unified text (and
    the empty line after an added LF), and it holds no CR. *)
Theorem C7_newlines_unified
    (s : str) (indent_size : Z)
    (convert_tabs aggressive_tabs keep_tabs : bool) :
  unify_newlines s = unify_pass s
  ∧ (CR ∉ unify_newlines s)
  ∧ (joined_text s indent_size convert_tabs aggressive_tabs keep_tabs
     = join [LF]
         (map (normalize_line indent_size convert_tabs aggressive_tabs
                              keep_tabs)
              (split LF (unify_pass s))))
  ∧ (normalize_text s indent_size convert_tabs aggressive_tabs keep_tabs
     = let text :=
         join [LF]
           (map (normalize_line indent_size convert_tabs aggressive_tabs
                                keep_tabs)
                (split LF (unify_pass s))) in
       if endswith [LF] text then text else text ++ [LF])
  ∧ (split LF
       (normalize_text s indent_size convert_tabs aggressive_tabs keep_tabs)
     = map (normalize_line indent_size convert_tabs aggressive_tabs keep_tabs)
           (split LF (unify_pass s))
       ++ (if endswith [LF]
                (join [LF]
                   (map (normalize_line indent_size convert_tabs
                                        aggressive_tabs keep_tabs)
                        (split LF (unify_pass s))))
           then [] else [[]]))
  ∧ CR ∉ normalize_text s indent_size convert_tabs aggressive_tabs keep_tabs.
Proof.
  assert (Hj : joined_text s indent_size convert_tabs aggressive_tabs
                           keep_tabs
               = join [LF]
                   (map (normalize_line indent_size convert_tabs
                                        aggressive_tabs keep_tabs)
                        (split LF (unify_pass s)))).
  { unfold joined_text. by rewrite unify_newlines_pass. }
  split; [apply unify_newlines_pass|].
  split; [apply unify_newlines_no_cr|].
  split; [exact Hj|].
  split; [|split; [|apply normalize_text_no_cr]].
  - cbv zeta. rewrite <- Hj. apply normalize_text_unfold.
  - rewrite <- Hj, <- unify_newlines_pass. apply normalize_text_lines.
Qed.

(** C4: the final newline.  The result always ends in LF: it is the joined
    text when that ends in LF already and the joined text with one LF added
    otherwise.  It ends in two LFs exactly when the lines of the input end
    in blank lines, and no line is dropped: the lines of the result are the
    normalised lines of the input (and the empty line after an added LF). *)
Theorem C4_final_newline
    (s : str) (indent_size : Z)
    (convert_tabs aggressive_tabs keep_tabs : bool) :
  endswith [LF]
    (normalize_text s indent_size convert_tabs aggressive_tabs keep_tabs)
  = true
  ∧ normalize_text s indent_size convert_tabs aggressive_tabs keep_tabs
    = (if endswith [LF]
            (joined_text s indent_size convert_tabs aggressive_tabs keep_tabs)
       then joined_text s indent_size convert_tabs aggressive_tabs keep_tabs
       else joined_text s indent_size convert_tabs aggressive_tabs keep_tabs
            ++ [LF])
  ∧ (endswith [LF; LF]
       (normalize_text s indent_size convert_tabs aggressive_tabs keep_tabs)
     = true
     ↔ trailing_blank_lines (split LF (unify_newlines s)))
  ∧ split LF
      (normalize_text s indent_size convert_tabs aggressive_tabs keep_tabs)
    = map (normalize_line indent_size convert_tabs aggressive_tabs keep_tabs)
          (split LF (unify_newlines s))
      ++ (if endswith [LF]
               (joined_text s indent_size convert_tabs aggressive_tabs
                            keep_tabs)
          then [] else [[]]).
Proof.
  split; [apply normalize_text_ends_lf|].
  split; [apply normalize_text_unfold|].
  split; [apply normalize_text_two_lf | apply normalize_text_lines].
Qed.

(** C8: leading tabs against all tabs.  With indent size 4 the line
    ["\tfoo\tbar"] becomes ["    foo\tbar"] in the default mode and
    ["    foo    bar"] in the aggressive mode, each with the final LF.  In
    the default mode the conversion expands the tabs of the leading run of
    spaces and tabs and leaves the rest of the line, from its first other
    character on, as it is. *)
Theorem C8_leading_vs_aggressive :
  normalize_text ([TAB] ++ txt "foo" ++ [TAB] ++ txt "bar") 4 true false false
  = txt "    foo" ++ [TAB] ++ txt "bar" ++ [LF]
  ∧ normalize_text ([TAB] ++ txt "foo" ++ [TAB] ++ txt "bar") 4 true true false
    = txt "    foo    bar" ++ [LF]
  ∧ ∀ (indent_size : Z) (line : str),
      tabs_to_spaces indent_size true false false line
      = flat_map (subst1 TAB (times [SP] indent_size))
                 (take (leading_run line) line)
        ++ drop (leading_run line) line
      ∧ blank (take (leading_run line) line) = true
      ∧ (drop (leading_run line) line = []
         ∨ ∃ c rest, drop (leading_run line) line = c :: rest
                     ∧ is_ws c = false).
Proof.
  split; [reflexivity|]. split; [reflexivity|].
  intros indent_size line.
  split; [apply tabs_to_spaces_default|].
  split; [apply leading_run_take | apply leading_run_drop].
Qed.

(** C1, as the code has it: for a tab-sensitive path no tab is turned into
    spaces, whatever the aggressive flag, the conversion flag and the indent
    size are.  Each line of the result is the line of the input with its
    trailing run of spaces and tabs removed, and nothing else is changed. *)
Theorem C1_tab_sensitive_only_trimmed
    (p : path) (s : str) (indent_size : Z)
    (convert_tabs aggressive_tabs : bool) :
  is_makefile_like p = true →
  (∀ line, normalize_line indent_size convert_tabs aggressive_tabs
                          (is_makefile_like p) line
           = rstrip [SP; TAB] line)
  ∧ (∀ line, ∃ t, line = rstrip [SP; TAB] line ++ t ∧ blank t = true)
  ∧ split LF (normalize_text s indent_size convert_tabs aggressive_tabs
                             (is_makefile_like p))
    = map (rstrip [SP; TAB]) (split LF (unify_newlines s))
      ++ (if endswith [LF]
               (join [LF] (map (rstrip [SP; TAB])
                               (split LF (unify_newlines s))))
          then [] else [[]])
  ∧ ∀ indent_size' convert_tabs' aggressive_tabs',
      normalize_text s indent_size' convert_tabs' aggressive_tabs'
                     (is_makefile_like p)
      = normalize_text s indent_size convert_tabs aggressive_tabs
                       (is_makefile_like p).
Proof.
  intros ->.
  assert (Hl : ∀ n cv ag line,
             normalize_line n cv ag true line = rstrip [SP; TAB] line).
  { intros n cv ag line. unfold normalize_line.
    by rewrite tabs_to_spaces_off by apply andb_false_r. }
  assert (Hj : ∀ n cv ag,
             joined_text s n cv ag true
             = join [LF] (map (rstrip [SP; TAB])
                              (split LF (unify_newlines s)))).
  { intros n cv ag. unfold joined_text. f_equal.
    apply map_ext. intros line. apply Hl. }
  split; [apply Hl|]. split; [intros line; apply rstrip_decomp|]. split.
  - rewrite normalize_text_lines, Hj. f_equal.
    apply map_ext. intros line. apply Hl.
  - intros n' cv' ag'. by rewrite !normalize_text_unfold, !Hj.
Qed.

Lemma C1_witness :
  is_makefile_like "src/rules.mk" = true
  ∧ split LF (normalize_text ([TAB] ++ txt "cc -c x.c" ++ [TAB; SP; LF])
                             4 true true (is_makefile_like "src/rules.mk"))
    = [[TAB] ++ txt "cc -c x.c"; []].
Proof.
  split; [by vm_compute|].
  destruct (C1_tab_sensitive_only_trimmed
              "src/rules.mk" ([TAB] ++ txt "cc -c x.c" ++ [TAB; SP; LF])
              4 true true ltac:(by vm_compute)) as (_ & _ & H & _).
  rewrite H. by vm_compute.
Defined.

(** C1, as it is written, fails: the trailing tab of a line of a makefile
    is trimmed, and a line that holds one tab only is emptied. *)
Lemma C1_trailing_tab_removed :
  is_makefile_like "Makefile" = true
  ∧ normalize_text (txt "all:" ++ [LF; TAB; LF]) INDENT_SIZE true false
                   (is_makefile_like "Makefile")
    = txt "all:" ++ [LF; LF]
  ∧ count_tabs (txt "all:" ++ [LF; TAB; LF]) = 1%nat
  ∧ count_tabs (normalize_text (txt "all:" ++ [LF; TAB; LF]) INDENT_SIZE true
                               false (is_makefile_like "Makefile")) = 0%nat.
Proof. by vm_compute. Qed.

(** ** UTF-8 *)

Section CodecFacts.

Implicit Types (c : char) (s : str) (bs : bytes).









End CodecFacts.

(** ** One file *)

Section ProcessFacts.

Variable codecs : registry.
Implicit Types (p : path) (raw : bytes) (w : world) (a : args).

Lemma bytes_eqb_false (x y : bytes) : bytes_eqb x y = false ↔ x ≠ y.
Proof. apply bool_decide_eq_false. Qed.

(** The three silent ways out. *)
Lemma skip_unreadable p rf ag ck rs w :
  read_bytes p w = None → skipped (process_file codecs p rf ag ck rs w) w.
Proof. unfold skipped, process_file. by intros ->. Qed.



Lemma process_file_decoded p rf ag ck rs w raw text :
  read_bytes p w = Some raw →
  is_potentially_text p (take HEAD_SIZE raw) = true →
  decode_raw codecs raw rf = Decoded text →
  process_file codecs p rf ag ck rs w
  = process_decoded p raw text ag ck rs w.
Proof. unfold process_file. by intros -> -> ->. Qed.


(** An empty [recode_from] counts as none. *)
Lemma recode_from_empty raw :
  decode_raw codecs raw (Some "") = decode_raw codecs raw None.
Proof. unfold decode_raw. by destruct (utf8_sig_decode raw). Qed.







End ProcessFacts.

(** ** The laws of the file processor *)

(** C2: a failed write.  In write mode, when the file was read, decoded and
    normalised to bytes that differ and writing them fails, [process_file]
    prints an error line on standard error, which no skipped file gets,
    does not ask git to stage the file, and returns, so that the loop of
    [main] goes on with the files that are left. *)
Theorem C2_write_failure
    (codecs : registry) (a : args) (p : path) (w : world)
    (raw : bytes) (text : str) (new_bytes : bytes) (msg : string) :
  check a = false →
  read_bytes p w = Some raw →
  is_potentially_text p (take HEAD_SIZE raw) = true →
  decode_raw codecs raw (recode_from a) = Decoded text →
  utf8_encode (normalize_text text INDENT_SIZE true (aggressive_tabs a)
                              (is_makefile_like p)) = Some new_bytes →
  new_bytes ≠ raw →
  write_error w p = Some msg →
  process_file codecs p (recode_from a) (aggressive_tabs a) (check a)
               (restage a) w
  = (Return false, w,
     [WriteBytes p new_bytes;
      PrintErr ("ERROR writing " +:+ p +:+ ": " +:+ msg)])
  ∧ (∀ w', ¬ skipped (process_file codecs p (recode_from a)
                                   (aggressive_tabs a) (check a)
                                   (restage a) w) w')
  ∧ existsb is_git_add
      (process_file codecs p (recode_from a) (aggressive_tabs a) (check a)
                    (restage a) w).2 = false
  ∧ (∀ rest any_changes,
       listed p = true →
       process_all codecs a (p :: rest) any_changes w
       = (let '(r, w', t) := process_all codecs a rest any_changes w in
          (r, w',
           [WriteBytes p new_bytes;
            PrintErr ("ERROR writing " +:+ p +:+ ": " +:+ msg)] ++ t))).
Proof.
  intros Hck Hread Htext Hdec Henc Hne Hw.
  assert (E : process_file codecs p (recode_from a) (aggressive_tabs a)
                           (check a) (restage a) w
              = (Return false, w,
                 [WriteBytes p new_bytes;
                  PrintErr ("ERROR writing " +:+ p +:+ ": " +:+ msg)])).
  { rewrite (process_file_decoded _ _ _ _ _ _ _ _ _ Hread Htext Hdec).
    unfold process_decoded. rewrite Henc.
    rewrite (proj2 (bytes_eqb_false _ _) Hne), Hck.
    unfold write_bytes. by rewrite Hw. }
  split; [done|]. rewrite E. split; [|split].
  - intros w' H. unfold skipped in H. discriminate H.
  - done.
  - intros rest any Hl. cbn [process_all].
    unfold listed in Hl. apply negb_true_iff in Hl. rewrite Hl, E.
    rewrite orb_false_r.
    by destruct (process_all codecs a rest any w) as [[r w'] t].
Qed.

Lemma C2_witness :
  process_file small_registry "ro.txt" None false false true sample_world
  = (Return false, sample_world,
     [WriteBytes "ro.txt" [x78; x0a];
      PrintErr "ERROR writing ro.txt: Permission denied"])
  ∧ (process_all small_registry write_args ["ro.txt"; "a.txt"] false
                 sample_world).2
    = [WriteBytes "ro.txt" [x78; x0a];
       PrintErr "ERROR writing ro.txt: Permission denied";
       WriteBytes "a.txt" [x78; x0a]; GitAdd "a.txt"; Print "Fixed a.txt"].
Proof.
  destruct (C2_write_failure small_registry write_args "ro.txt"
              sample_world [x78; x20; x0a] (txt "x " ++ [LF])
              [x78; x0a] "Permission denied"
              eq_refl ltac:(by vm_compute) ltac:(by vm_compute)
              ltac:(by vm_compute) ltac:(by vm_compute) ltac:(done)
              ltac:(by vm_compute)) as (Hone & _ & _ & Hloop).
  split; [exact Hone|].
  rewrite Hloop by by vm_compute. by vm_compute.
Defined.

(** C9, as the code has it: when [recode_from] is a name the platform does
    not know, a readable file that passes for text and is not valid UTF-8
    makes [process_file] raise [LookupError], whatever the mode, and it
    returns nothing, unless the name is the empty string: that counts as no
    fallback at all, and the file is skipped. *)
Theorem C9_unknown_encoding_raises
    (codecs : registry) (p : path) (enc : string)
    (aggressive_tabs check_only restage : bool) (w : world) (raw : bytes) :
  codecs enc = None →
  read_bytes p w = Some raw →
  is_potentially_text p (take HEAD_SIZE raw) = true →
  utf8_sig_decode raw = None →
  process_file codecs p (Some enc) aggressive_tabs check_only restage w
  = (if String.eqb enc "" then (Return false, w, [])
     else (Raise (LookupError enc), w, []))
  ∧ (enc ≠ ""%string →
     ∀ b w' t,
       process_file codecs p (Some enc) aggressive_tabs check_only restage w
       ≠ (Return b, w', t)).
Proof.
  intros Hcodec Hread Htext Hutf.
  assert (E : process_file codecs p (Some enc) aggressive_tabs check_only
                           restage w
              = (if String.eqb enc "" then (Return false, w, [])
                 else (Raise (LookupError enc), w, []))).
  { unfold process_file. rewrite Hread, Htext. cbn [negb].
    unfold decode_raw, bytes_decode. rewrite Hutf, Hcodec.
    by destruct (String.eqb enc ""). }
  split; [done|]. intros Hne b w' t. rewrite E.
  rewrite (proj2 (String.eqb_neq enc "") Hne). discriminate.
Qed.

Lemma C9_witness :
  process_file small_registry "legacy.txt" (Some "cp1251") false true false
               sample_world
  = (Raise (LookupError "cp1251"), sample_world, []).
Proof.
  exact (proj1 (C9_unknown_encoding_raises small_registry "legacy.txt"
                  "cp1251" false true false sample_world [xe9; x0a]
                  ltac:(by vm_compute) ltac:(by vm_compute)
                  ltac:(by vm_compute) ltac:(by vm_compute))).
Defined.

(** C9, as it is written, fails for the empty name: the platform knows no
    encoding of that name, the file is readable, passes for text and is not
    valid UTF-8, and [process_file] returns [False] in silence. *)
Lemma C9_empty_name_is_skipped :
  small_registry "" = None
  ∧ read_bytes "legacy.txt" sample_world = Some [xe9; x0a]
  ∧ is_potentially_text "legacy.txt" (take HEAD_SIZE [xe9; x0a]) = true
  ∧ utf8_sig_decode [xe9; x0a] = None
  ∧ process_file small_registry "legacy.txt" (Some "") false false false
                 sample_world
    = (Return false, sample_world, []).
Proof. by vm_compute. Qed.

(** C10, as the code has it: the result of [normalize_text] is never empty
    and is one LF for the empty text.  So an empty file that can be read and
    passes for text needs a change: a dry run reports it, and a run in write
    mode writes one LF byte to it, which leaves the file with that byte and
    reports it fixed when the write succeeds and reports the error when it
    fails. *)
Theorem C10_empty_file
    (codecs : registry) (p : path) (rf : option string)
    (aggressive_tabs restage : bool) (w : world) :
  read_bytes p w = Some [] →
  is_potentially_text p [] = true →
  (∀ s n cv ag kp, normalize_text s n cv ag kp ≠ [])
  ∧ (∀ n cv ag kp, normalize_text [] n cv ag kp = [LF])
  ∧ process_file codecs p rf aggressive_tabs true restage w
    = (Return true, w, [Print ("NEEDS-FIX " +:+ p)])
  ∧ (write_error w p = None →
     process_file codecs p rf aggressive_tabs false restage w
     = (Return true, World (<[p := [x0a]]> (files w)) (write_error w),
        [WriteBytes p [x0a]] ++ (if restage then [GitAdd p] else [])
        ++ [Print ("Fixed " +:+ p)]))
  ∧ (∀ msg, write_error w p = Some msg →
     process_file codecs p rf aggressive_tabs false restage w
     = (Return false, w,
        [WriteBytes p [x0a];
         PrintErr ("ERROR writing " +:+ p +:+ ": " +:+ msg)])).
Proof.
  intros Hread Htext.
  assert (Hnil : ∀ n cv ag kp, normalize_text [] n cv ag kp = [LF]).
  { intros n cv ag kp. by destruct cv, ag, kp. }
  assert (Hp : ∀ ck,
             process_file codecs p rf aggressive_tabs ck restage w
             = process_decoded p [] [] aggressive_tabs ck restage w).
  { intros ck. by apply process_file_decoded. }
  split; [|split; [done|]].
  - intros s n cv ag kp H.
    pose proof (normalize_text_ends_lf n cv ag kp s) as E.
    rewrite H in E. discriminate E.
  - rewrite !Hp. unfold process_decoded. rewrite Hnil.
    split; [done|]. split.
    + intros Hw. simpl. unfold write_bytes. by rewrite Hw.
    + intros msg Hw. simpl. unfold write_bytes. by rewrite Hw.
Qed.

Lemma C10_witness :
  process_file small_registry "empty.txt" None false true false sample_world
  = (Return true, sample_world, [Print "NEEDS-FIX empty.txt"])
  ∧ (let '(r, w', t) :=
       process_file small_registry "empty.txt" None false false false
                    sample_world in
     (r, files w' !! "empty.txt", t))
    = (Return true, Some [x0a],
       [WriteBytes "empty.txt" [x0a]; Print "Fixed empty.txt"]).
Proof.
  destruct (C10_empty_file small_registry "empty.txt" None false false
              sample_world ltac:(by vm_compute) ltac:(by vm_compute))
    as (_ & _ & Hcheck & Hwrite & _).
  split; [exact Hcheck|]. rewrite Hwrite; by vm_compute.
Defined.

(** C10, as it is written, fails for an empty file with the extension of a
    binary format: it can be read and decoded, and is passed over in both
    modes.  It fails as well for an empty file that cannot be written: the
    write of one LF is tried and an error is reported, the file is not
    reported as changed. *)
Lemma C10_empty_binary_named_file :
  read_bytes "logo.png" sample_world = Some []
  ∧ utf8_sig_decode [] = Some []
  ∧ process_file small_registry "logo.png" None false true false sample_world
    = (Return false, sample_world, [])
  ∧ process_file small_registry "logo.png" None false false false
                 sample_world
    = (Return false, sample_world, [])
  ∧ process_file small_registry "ro-empty.txt" None false false false
                 sample_world
    = (Return false, sample_world,
       [WriteBytes "ro-empty.txt" [x0a];
        PrintErr "ERROR writing ro-empty.txt: Permission denied"]).
Proof. by vm_compute. Qed.

(** * Further properties *)

(** ** What a normalised text looks like *)

Section NormalFacts.

Variables (n : Z) (cv ag kp : bool).
Implicit Types (c x : char) (s l t : str) (ls : list str).

Local Notation "'NL'" := (normalize_line n cv ag kp).
Local Notation "'expand'" := (flat_map (subst1 TAB (times [SP] n))).

Lemma rstrip_snoc chars t c :
  rstrip chars (t ++ [c]) = if mem c chars then rstrip chars t else t ++ [c].
Proof.
  induction t as [|x t IH]; [done|].
  change ((x :: t) ++ [c]) with (x :: (t ++ [c])).
  rewrite rstrip_cons, IH. destruct (mem c chars).
  - by rewrite rstrip_cons.
  - by destruct t.
Qed.

Lemma rstrip_length chars s : (length (rstrip chars s) ≤ length s)%nat.
Proof.
  destruct (rstrip_decomp chars s) as (t & E & _).
  rewrite E at 2. rewrite length_app. lia.
Qed.

Lemma rstrip_no_trailing s : no_trailing_ws (rstrip [SP; TAB] s).
Proof.
  unfold no_trailing_ws.
  destruct (last (rstrip [SP; TAB] s)) as [c|] eqn:E; [|done].
  apply last_Some in E as [t E].
  pose proof (rstrip_idem [SP; TAB] s) as H. rewrite E, rstrip_snoc in H.
  unfold is_ws. destruct (mem c [SP; TAB]); [|done].
  pose proof (rstrip_length [SP; TAB] t) as Hlen.
  rewrite H, length_app in Hlen. simpl in Hlen. lia.
Qed.

Lemma rstrip_fixed s : no_trailing_ws s → rstrip [SP; TAB] s = s.
Proof.
  unfold no_trailing_ws. destruct s as [|c t _] using rev_ind; [done|].
  rewrite last_snoc, rstrip_snoc. unfold is_ws. by intros ->.
Qed.

(** The shape of a line after the default conversion and the trim: empty,
    or spaces, then a character that is neither a space nor a tab. *)
Lemma normalize_line_default_shape l :
  normalize_line n true false false l = []
  ∨ ∃ e c t, normalize_line n true false false l = e ++ c :: t
             ∧ (∀ x, x ∈ e → x = SP) ∧ is_ws c = false.
Proof.
  unfold normalize_line. rewrite tabs_to_spaces_default.
  pose proof (expand_ws n _ (leading_run_take l)) as He.
  destruct (leading_run_drop l) as [->|(c & t & -> & Hc)].
  - left. rewrite app_nil_r. by apply rstrip_nil, forallb_is_ws_spaces.
  - right. rewrite (rstrip_app_keep _ _ c t Hc).
    eexists _, c, _. split; [done|]. by split.
Qed.

Lemma normalize_line_default_indent l :
  TAB ∉ take (leading_run (normalize_line n true false false l))
             (normalize_line n true false false l).
Proof.
  destruct (normalize_line_default_shape l) as [->|(e & c & t & -> & He & Hc)].
  - by intros ?%elem_of_nil.
  - rewrite (leading_run_app e (c :: t)).
    + rewrite take_app_length. by apply spaces_no_tab.
    + by apply forallb_is_ws_spaces.
    + right. by exists c, t.
Qed.

Lemma normalize_line_aggressive_no_tab l :
  TAB ∉ normalize_line n true true false l.
Proof.
  unfold normalize_line. rewrite tabs_to_spaces_aggressive.
  intros [[_ ?]|?]%rstrip_elem%expand_elem; done.
Qed.

(** Every line the loop body gives is normal, and a normal line is given
    back as it is. *)
Lemma normalize_line_normal l : line_normal cv ag kp (NL l).
Proof.
  split; [apply rstrip_idem|].
  destruct (cv && negb kp) eqn:E; [|done].
  apply andb_true_iff in E as [-> ->%negb_true_iff]. destruct ag.
  - apply normalize_line_aggressive_no_tab.
  - apply normalize_line_default_indent.
Qed.

Lemma line_normal_fixed l : line_normal cv ag kp l → NL l = l.
Proof.
  intros [Hr Ht]. unfold normalize_line.
  destruct (cv && negb kp) eqn:E.
  - apply andb_true_iff in E as [-> ->%negb_true_iff]. destruct ag.
    + rewrite tabs_to_spaces_aggressive, expand_no_tab; done.
    + rewrite tabs_to_spaces_default, (expand_no_tab n _ Ht), take_drop.
      done.
  - by rewrite tabs_to_spaces_off.
Qed.

Lemma line_normal_nil : line_normal cv ag kp [].
Proof.
  split; [done|]. destruct (cv && negb kp); [|done].
  destruct ag; by intros ?%elem_of_nil.
Qed.

Lemma normalize_text_lines_normal s :
  Forall (line_normal cv ag kp) (split LF (normalize_text s n cv ag kp)).
Proof.
  rewrite normalize_text_lines. apply Forall_app. split.
  - apply List.Forall_map, Forall_forall. intros l _.
    apply normalize_line_normal.
  - destruct (endswith [LF] _); repeat constructor. apply line_normal_nil.
Qed.

Lemma normal_form_fixed s :
  normal_form cv ag kp s → normalize_text s n cv ag kp = s.
Proof.
  intros (Hcr & Hlf & Hl).
  assert (Hj : joined_text s n cv ag kp = s).
  { unfold joined_text. rewrite unify_newlines_id by done.
    rewrite <- (join_split LF s) at 2. f_equal.
    rewrite <- (map_id (split LF s)) at 2. apply map_ext_Forall.
    eapply Forall_impl; [exact Hl|]. intros l. apply line_normal_fixed. }
  by rewrite normalize_text_unfold, Hj, Hlf.
Qed.

Lemma normalize_text_normal_form s :
  normal_form cv ag kp (normalize_text s n cv ag kp).
Proof.
  split; [apply normalize_text_no_cr|].
  split; [apply normalize_text_ends_lf | apply normalize_text_lines_normal].
Qed.

End NormalFacts.

(** ** Only white space is touched *)

Section InkFacts.

Variables (n : Z) (cv ag kp : bool).
Implicit Types (c x : char) (s l t : str) (ls : list str).

Lemma ink_app s t : ink (s ++ t) = ink s ++ ink t.
Proof. apply List.filter_app. Qed.

Lemma ink_blank t : blank t = true → ink t = [].
Proof.
  induction t as [|c t IH]; [done|]. cbn [blank forallb].
  intros [Hc Ht]%andb_true_iff. unfold ink in *. cbn [List.filter].
  unfold is_ws in Hc. apply mem_true in Hc.
  rewrite (proj2 (mem_true c [SP; TAB; CR; LF])).
  - by apply IH.
  - apply elem_of_cons in Hc as [->|Hc]; [left|].
    apply list_elem_of_singleton in Hc as ->. right. left.
Qed.

Lemma ink_spaces t : (∀ x, x ∈ t → x = SP) → ink t = [].
Proof. intros H. by apply ink_blank, forallb_is_ws_spaces. Qed.

Lemma unify_pass_cr b l :
  b ≠ LF → unify_pass (CR :: b :: l) = LF :: unify_pass (b :: l).
Proof.
  intros Hb. cbn [unify_pass]. rewrite N.eqb_refl.
  by rewrite (proj2 (N.eqb_neq b LF) Hb).
Qed.

Lemma unify_pass_other a l : a ≠ CR → unify_pass (a :: l) = a :: unify_pass l.
Proof.
  intros Ha. cbn [unify_pass]. by rewrite (proj2 (N.eqb_neq a CR) Ha).
Qed.

Lemma ink_unify s : ink (unify_newlines s) = ink s.
Proof.
  rewrite unify_newlines_pass.
  induction s as [|a|a b l IH1 IH2] using list_ind2.
  - done.
  - cbn [unify_pass]. destruct (N.eqb_spec a CR) as [->|Ha]; reflexivity.
  - destruct (N.eqb_spec a CR) as [->|Ha].
    + destruct (N.eqb_spec b LF) as [->|Hb].
      * change (unify_pass (CR :: LF :: l)) with (LF :: unify_pass l).
        change (ink (CR :: LF :: l)) with (ink l).
        change (ink (LF :: unify_pass l)) with (ink (unify_pass l)). done.
      * rewrite unify_pass_cr by done.
        change (ink (CR :: b :: l)) with (ink (b :: l)).
        change (ink (LF :: unify_pass (b :: l)))
          with (ink (unify_pass (b :: l))). done.
    + rewrite unify_pass_other by done.
      change (a :: unify_pass (b :: l)) with ([a] ++ unify_pass (b :: l)).
      change (a :: b :: l) with ([a] ++ b :: l).
      by rewrite !ink_app, IH2.
Qed.

Lemma ink_join ls : ink (join [LF] ls) = concat (map ink ls).
Proof.
  induction ls as [|l ls IH]; [done|]. destruct ls as [|l' ls].
  - simpl. by rewrite app_nil_r.
  - rewrite join_cons, !ink_app, IH. done.
Qed.

Lemma ink_expand l :
  ink (flat_map (subst1 TAB (times [SP] n)) l) = ink l.
Proof.
  induction l as [|c l IH]; [done|]. cbn [flat_map].
  change (c :: l) with ([c] ++ l). rewrite !ink_app, IH. f_equal.
  unfold subst1. destruct (N.eqb_spec c TAB) as [->|_]; [|done].
  apply ink_spaces, times_spaces.
Qed.

Lemma ink_rstrip l : ink (rstrip [SP; TAB] l) = ink l.
Proof.
  destruct (rstrip_decomp [SP; TAB] l) as (t & E & Ht).
  rewrite E at 2. by rewrite ink_app, (ink_blank t Ht), app_nil_r.
Qed.

Lemma ink_normalize_line l : ink (normalize_line n cv ag kp l) = ink l.
Proof.
  unfold normalize_line. rewrite ink_rstrip.
  destruct (cv && negb kp) eqn:E; [|by rewrite tabs_to_spaces_off].
  apply andb_true_iff in E as [-> ->%negb_true_iff]. destruct ag.
  - by rewrite tabs_to_spaces_aggressive, ink_expand.
  - rewrite tabs_to_spaces_default, ink_app, ink_expand, <- ink_app.
    by rewrite take_drop.
Qed.

Lemma ink_normalize_text s : ink (normalize_text s n cv ag kp) = ink s.
Proof.
  assert (Hj : ink (joined_text s n cv ag kp) = ink s).
  { unfold joined_text. rewrite ink_join, map_map.
    rewrite (map_ext _ ink) by apply ink_normalize_line.
    by rewrite <- ink_join, join_split, ink_unify. }
  rewrite normalize_text_unfold.
  destruct (endswith [LF] _); [done|].
  by rewrite ink_app, Hj, app_nil_r.
Qed.

(** Where there is no tab the tab conversion has nothing to do. *)
Lemma tabs_to_spaces_no_tab l : TAB ∉ l → tabs_to_spaces n cv ag kp l = l.
Proof.
  intros Ht. destruct (cv && negb kp) eqn:E; [|by rewrite tabs_to_spaces_off].
  apply andb_true_iff in E as [-> ->%negb_true_iff]. destruct ag.
  - by rewrite tabs_to_spaces_aggressive, expand_no_tab.
  - rewrite tabs_to_spaces_default, expand_no_tab, take_drop; [done|].
    intros H. apply Ht. rewrite <- (take_drop (leading_run l) l).
    apply elem_of_app. by left.
Qed.

Lemma joined_text_no_tab s :
  TAB ∉ s →
  joined_text s n cv ag kp
  = join [LF] (map (rstrip [SP; TAB]) (split LF (unify_newlines s))).
Proof.
  intros Ht. unfold joined_text. f_equal. apply map_ext_in.
  intros l Hl%list_elem_of_In. unfold normalize_line.
  rewrite tabs_to_spaces_no_tab; [done|].
  intros Hx. pose proof (elem_of_split _ _ _ _ Hl Hx) as Hu.
  rewrite unify_newlines_pass in Hu.
  apply unify_pass_elem in Hu as [?|[? _]]; done.
Qed.

End InkFacts.

(** ** Further laws of the normaliser *)

(** X1: no trailing white space.  Whatever the configuration, no line of
    the result of [normalize_text] ends in a space or a tab. *)
Theorem X1_no_trailing_whitespace
    (s : str) (indent_size : Z)
    (convert_tabs aggressive_tabs keep_tabs : bool) :
  Forall no_trailing_ws
    (split LF
       (normalize_text s indent_size convert_tabs aggressive_tabs keep_tabs)).
Proof.
  rewrite normalize_text_lines. apply Forall_app. split.
  - apply List.Forall_map, Forall_forall. intros l _.
    apply rstrip_no_trailing.
  - destruct (endswith [LF] _); by repeat constructor.
Qed.

(** X2: where the tabs go.  With the conversion on and tabs not kept, the
    aggressive mode leaves no tab in the result at all, and the default
    mode leaves none in the indentation: the leading run of spaces and tabs
    of every line of the result is made of spaces. *)
Theorem X2_tabs_converted (s : str) (indent_size : Z) :
  (TAB ∉ normalize_text s indent_size true true false)
  ∧ Forall (fun line => ∀ x, x ∈ take (leading_run line) line → x = SP)
      (split LF (normalize_text s indent_size true false false)).
Proof.
  split.
  - rewrite normalize_text_unfold.
    assert (Hj : TAB ∉ joined_text s indent_size true true false).
    { unfold joined_text. intros [H|(l & Hl & Hx)]%elem_of_join.
      - by apply list_elem_of_singleton in H.
      - apply list_elem_of_In, in_map_iff in Hl as (l0 & <- & _).
        by apply normalize_line_aggressive_no_tab in Hx. }
    destruct (endswith [LF] _); [done|].
    intros [H|H]%elem_of_app; [done|].
    by apply list_elem_of_singleton in H.
  - rewrite normalize_text_lines. apply Forall_app. split.
    + apply List.Forall_map, Forall_forall. intros l _ x.
      destruct (normalize_line_default_shape indent_size l)
        as [->|(e & c & t & -> & He & Hc)].
      * by intros ?%elem_of_nil.
      * rewrite (leading_run_app e (c :: t)).
        -- rewrite take_app_length. apply He.
        -- by apply forallb_is_ws_spaces.
        -- right. by exists c, t.
    + destruct (endswith [LF] _); repeat constructor.
      by intros x ?%elem_of_nil.
Qed.

(** X3: the texts [normalize_text] leaves alone.  A text is its own normal
    form exactly when it has no CR, ends in LF, and each of its lines is
    free of trailing spaces and tabs and, where tabs are converted, free of
    tabs (aggressive mode) or of tabs in its leading run (default mode).
    The indent size plays no part. *)
Theorem X3_fixed_point_iff_normal_form
    (s : str) (indent_size : Z)
    (convert_tabs aggressive_tabs keep_tabs : bool) :
  normalize_text s indent_size convert_tabs aggressive_tabs keep_tabs = s
  ↔ normal_form convert_tabs aggressive_tabs keep_tabs s.
Proof.
  split.
  - intros H. rewrite <- H. apply normalize_text_normal_form.
  - apply normal_form_fixed.
Qed.

(** X4: only white space is touched.  The characters of the result other
    than space, tab, CR and LF are those of the input, in the same order:
    nothing else is added, dropped or moved. *)
Theorem X4_only_whitespace_changes
    (s : str) (indent_size : Z)
    (convert_tabs aggressive_tabs keep_tabs : bool) :
  ink (normalize_text s indent_size convert_tabs aggressive_tabs keep_tabs)
  = ink s.
Proof. apply ink_normalize_text. Qed.

(** X5: a text without tabs is normalised in the same way under every
    configuration: lines are unified and trimmed, nothing more. *)
Theorem X5_tab_free_text_same_in_all_modes
    (s : str) (n n' : Z) (cv ag kp cv' ag' kp' : bool) :
  TAB ∉ s →
  normalize_text s n cv ag kp = normalize_text s n' cv' ag' kp'
  ∧ joined_text s n cv ag kp
    = join [LF] (map (rstrip [SP; TAB]) (split LF (unify_newlines s))).
Proof.
  intros Ht. split; [|by apply joined_text_no_tab].
  by rewrite !normalize_text_unfold, !joined_text_no_tab.
Qed.

Lemma X5_witness :
  normalize_text (txt "a  " ++ [CR; LF] ++ txt "  b ") 8 true true false
  = normalize_text (txt "a  " ++ [CR; LF] ++ txt "  b ") 2 false false true.
Proof.
  refine (proj1 (X5_tab_free_text_same_in_all_modes
                   (txt "a  " ++ [CR; LF] ++ txt "  b ")
                   8 2 true true false false false true _)).
  apply (bool_decide_unpack _). by vm_compute.
Defined.

(** ** UTF-8 there and back *)

Section CodecRoundTrip.

Implicit Types (c : char) (s : str) (b : byte) (bs r : bytes).

Local Ltac div_lia := zify; Z.to_euclidean_division_equations; lia.

Local Ltac tests :=
  repeat match goal with
    | H : _ && _ = true |- _ => apply andb_true_iff in H as [? ?]
    | H : negb _ = true |- _ => apply negb_true_iff in H
    | H : (_ <=? _) = true |- _ => apply N.leb_le in H
    | H : (_ <=? _) = false |- _ => apply N.leb_gt in H
    | H : (_ <? _) = true |- _ => apply N.ltb_lt in H
    | H : (_ <? _) = false |- _ => apply N.ltb_ge in H
    | H : is_cont _ = true |- _ => unfold is_cont in H
    end.

Lemma b2n_bound b : b2n b < 256.
Proof. pose proof (Byte.to_N_bounded b). unfold b2n. lia. Qed.

Lemma b2n_n2b x : x < 256 → b2n (n2b x) = x.
Proof.
  intros H. unfold b2n, n2b. destruct (Byte.of_N x) as [b|] eqn:E.
  - by apply Byte.to_of_N.
  - apply Byte.of_N_None_iff in E. lia.
Qed.

Lemma n2b_b2n b : n2b (b2n b) = b.
Proof. unfold b2n, n2b. by rewrite Byte.of_to_N. Qed.

(** One step of the decoder, for each length of a sequence. *)
Lemma utf8_decode_1 b0 r :
  b2n b0 < 128 → utf8_decode (b0 :: r) = cons (b2n b0) <$> utf8_decode r.
Proof.
  intros H. cbn [utf8_decode]. by rewrite (proj2 (N.ltb_lt _ _) H).
Qed.

Lemma utf8_decode_2 b0 b1 r c :
  c = (b2n b0 - 192) * 64 + (b2n b1 - 128) →
  192 <= b2n b0 < 224 → 128 <= b2n b1 <= 191 → 128 <= c →
  utf8_decode (b0 :: b1 :: r) = cons c <$> utf8_decode r.
Proof.
  intros -> H0 H1 Hc. cbn [utf8_decode].
  rewrite (proj2 (N.ltb_ge _ _)) by lia.
  rewrite (proj2 (N.leb_le 192 _)), (proj2 (N.ltb_lt _ 224)) by lia.
  unfold is_cont.
  rewrite (proj2 (N.leb_le 128 (b2n b1))), (proj2 (N.leb_le _ 191)) by lia.
  by rewrite (proj2 (N.leb_le 128 _) Hc).
Qed.

Lemma utf8_decode_3 b0 b1 b2 r c :
  c = (b2n b0 - 224) * 4096 + (b2n b1 - 128) * 64 + (b2n b2 - 128) →
  224 <= b2n b0 < 240 → 128 <= b2n b1 <= 191 → 128 <= b2n b2 <= 191 →
  2048 <= c → is_surrogate c = false →
  utf8_decode (b0 :: b1 :: b2 :: r) = cons c <$> utf8_decode r.
Proof.
  intros -> H0 H1 H2 Hc Hs. cbn [utf8_decode].
  rewrite (proj2 (N.ltb_ge _ 128)) by lia.
  rewrite (proj2 (N.ltb_ge _ 224)), andb_false_r by lia.
  rewrite (proj2 (N.leb_le 224 _)), (proj2 (N.ltb_lt _ 240)) by lia.
  unfold is_cont.
  rewrite (proj2 (N.leb_le 128 (b2n b1))), (proj2 (N.leb_le (b2n b1) 191))
    by lia.
  rewrite (proj2 (N.leb_le 128 (b2n b2))), (proj2 (N.leb_le (b2n b2) 191))
    by lia.
  by rewrite (proj2 (N.leb_le 2048 _) Hc), Hs.
Qed.

Lemma utf8_decode_4 b0 b1 b2 b3 r c :
  c = (b2n b0 - 240) * 262144 + (b2n b1 - 128) * 4096
      + (b2n b2 - 128) * 64 + (b2n b3 - 128) →
  240 <= b2n b0 < 248 → 128 <= b2n b1 <= 191 → 128 <= b2n b2 <= 191 →
  128 <= b2n b3 <= 191 → 65536 <= c <= 1114111 →
  utf8_decode (b0 :: b1 :: b2 :: b3 :: r) = cons c <$> utf8_decode r.
Proof.
  intros -> H0 H1 H2 H3 Hc. cbn [utf8_decode].
  rewrite (proj2 (N.ltb_ge _ 128)) by lia.
  rewrite (proj2 (N.ltb_ge _ 224)), andb_false_r by lia.
  rewrite (proj2 (N.ltb_ge _ 240)), andb_false_r by lia.
  rewrite (proj2 (N.leb_le 240 _)), (proj2 (N.ltb_lt _ 248)) by lia.
  unfold is_cont.
  rewrite (proj2 (N.leb_le 128 (b2n b1))), (proj2 (N.leb_le (b2n b1) 191))
    by lia.
  rewrite (proj2 (N.leb_le 128 (b2n b2))), (proj2 (N.leb_le (b2n b2) 191))
    by lia.
  rewrite (proj2 (N.leb_le 128 (b2n b3))), (proj2 (N.leb_le (b2n b3) 191))
    by lia.
  by rewrite (proj2 (N.leb_le 65536 _)), (proj2 (N.leb_le _ 1114111)) by lia.
Qed.

(** Decoding what was encoded gives the text back. *)
Lemma utf8_decode_encode_char c (cb : bytes) r :
  utf8_encode_char c = Some cb →
  utf8_decode (cb ++ r) = cons c <$> utf8_decode r.
Proof.
  unfold utf8_encode_char.
  destruct (c <? 128) eqn:E1.
  { intros [= <-]. tests. cbn [app].
    rewrite utf8_decode_1; rewrite b2n_n2b; (done || lia). }
  destruct (c <? 2048) eqn:E2.
  { intros [= <-]. tests. cbn [app].
    apply utf8_decode_2; rewrite ?b2n_n2b; div_lia. }
  destruct (c <? 65536) eqn:E3.
  { destruct (is_surrogate c) eqn:Es; [done|]. intros [= <-].
    tests. cbn [app].
    apply utf8_decode_3; rewrite ?b2n_n2b; (done || div_lia). }
  destruct (c <=? 1114111) eqn:E4; [|done].
  intros [= <-]. tests. cbn [app].
  apply utf8_decode_4; rewrite ?b2n_n2b; div_lia.
Qed.

Lemma utf8_decode_encode s bs :
  utf8_encode s = Some bs → utf8_decode bs = Some s.
Proof.
  revert bs. induction s as [|c s IH]; intros bs.
  - by intros [= <-].
  - cbn [utf8_encode].
    destruct (utf8_encode_char c) as [cb|] eqn:Ec; [|done].
    destruct (utf8_encode s) as [bs'|]; [|done]. intros [= <-].
    by rewrite (utf8_decode_encode_char c cb bs' Ec), (IH bs' eq_refl).
Qed.

(** Encoding what was decoded gives the bytes back. *)
Lemma utf8_encode_decode bs s :
  utf8_decode bs = Some s → utf8_encode s = Some bs.
Proof.
  remember (length bs) as n eqn:Hn. revert bs s Hn.
  induction n as [n IH] using lt_wf_ind. intros bs s Hn H.
  destruct bs as [|b0 r0]; [by injection H as <-|].
  cbn [utf8_decode] in H. cbn [length] in Hn.
  pose proof (b2n_bound b0) as B0.
  destruct (b2n b0 <? 128) eqn:E1.
  { destruct (utf8_decode r0) as [s0|] eqn:E0; [|done]. injection H as <-.
    tests. cbn [utf8_encode]. unfold utf8_encode_char.
    rewrite (proj2 (N.ltb_lt _ 128)) by done. rewrite n2b_b2n.
    by rewrite (IH (length r0) ltac:(lia) r0 s0 eq_refl E0). }
  destruct ((192 <=? b2n b0) && (b2n b0 <? 224)) eqn:E2.
  { destruct r0 as [|b1 r1]; [done|].
    remember ((b2n b0 - 192) * 64 + (b2n b1 - 128)) as c eqn:Hc.
    destruct (is_cont b1 && _) eqn:E3; [|done].
    destruct (utf8_decode r1) as [s0|] eqn:E0; [|done]. injection H as <-.
    tests. cbn [utf8_encode]. unfold utf8_encode_char.
    rewrite (proj2 (N.ltb_ge c 128)), (proj2 (N.ltb_lt c 2048)) by lia.
    replace (192 + c / 64) with (b2n b0) by div_lia.
    replace (128 + c mod 64) with (b2n b1) by div_lia.
    rewrite !n2b_b2n.
    by rewrite (IH (length r1) ltac:(cbn [length] in Hn; lia) r1 s0 eq_refl
                   E0). }
  destruct ((224 <=? b2n b0) && (b2n b0 <? 240)) eqn:E3.
  { destruct r0 as [|b1 [|b2 r2]]; [done..|].
    remember ((b2n b0 - 224) * 4096 + (b2n b1 - 128) * 64 + (b2n b2 - 128))
      as c eqn:Hc.
    destruct (is_cont b1 && is_cont b2 && _ && _) eqn:E4; [|done].
    destruct (utf8_decode r2) as [s0|] eqn:E0; [|done]. injection H as <-.
    tests. cbn [utf8_encode]. unfold utf8_encode_char.
    rewrite (proj2 (N.ltb_ge c 128)), (proj2 (N.ltb_ge c 2048)) by lia.
    rewrite (proj2 (N.ltb_lt c 65536)) by lia.
    match goal with Hs : is_surrogate c = false |- _ => rewrite Hs end.
    replace (224 + c / 4096) with (b2n b0) by div_lia.
    replace (128 + (c / 64) mod 64) with (b2n b1) by div_lia.
    replace (128 + c mod 64) with (b2n b2) by div_lia.
    rewrite !n2b_b2n.
    by rewrite (IH (length r2) ltac:(cbn [length] in Hn; lia) r2 s0 eq_refl
                   E0). }
  destruct ((240 <=? b2n b0) && (b2n b0 <? 248)) eqn:E4; [|done].
  destruct r0 as [|b1 [|b2 [|b3 r3]]]; [done..|].
  remember ((b2n b0 - 240) * 262144 + (b2n b1 - 128) * 4096
            + (b2n b2 - 128) * 64 + (b2n b3 - 128)) as c eqn:Hc.
  destruct (is_cont b1 && is_cont b2 && is_cont b3 && _ && _) eqn:E5;
    [|done].
  destruct (utf8_decode r3) as [s0|] eqn:E0; [|done]. injection H as <-.
  tests. cbn [utf8_encode]. unfold utf8_encode_char.
  rewrite (proj2 (N.ltb_ge c 128)), (proj2 (N.ltb_ge c 2048)) by lia.
  rewrite (proj2 (N.ltb_ge c 65536)), (proj2 (N.leb_le c 1114111)) by lia.
  replace (240 + c / 262144) with (b2n b0) by div_lia.
  replace (128 + (c / 4096) mod 64) with (b2n b1) by div_lia.
  replace (128 + (c / 64) mod 64) with (b2n b2) by div_lia.
  replace (128 + c mod 64) with (b2n b3) by div_lia.
  rewrite !n2b_b2n.
  by rewrite (IH (length r3) ltac:(cbn [length] in Hn; lia) r3 s0 eq_refl
                 E0).
Qed.

End CodecRoundTrip.

(** ** The bytes that are written *)

Section BytesFacts.

Implicit Types (c : char) (s t : str) (bs r : bytes).

Lemma utf8_decode_bom r :
  utf8_decode (BOM_UTF8 ++ r) = cons ZWNBSP <$> utf8_decode r.
Proof. reflexivity. Qed.

(** [utf-8-sig] drops a mark that is there and is plain UTF-8 otherwise. *)
Lemma utf8_sig_decode_cases bs :
  (∃ r, bs = BOM_UTF8 ++ r ∧ utf8_sig_decode bs = utf8_decode r)
  ∨ (utf8_sig_decode bs = utf8_decode bs ∧ ∀ r, bs ≠ BOM_UTF8 ++ r).
Proof.
  destruct bs as [|b0 bs]; [right; by split|].
  destruct b0; try (right; split; [reflexivity | by intros r [=]]).
  destruct bs as [|b1 bs]; [right; by split|].
  destruct b1; try (right; split; [reflexivity | by intros r [=]]).
  destruct bs as [|b2 bs]; [right; by split|].
  destruct b2; try (right; split; [reflexivity | by intros r [=]]).
  left. by exists bs.
Qed.


Lemma utf8_encode_mark s r :
  utf8_encode s = Some (BOM_UTF8 ++ r) → ¬ no_leading_mark s.
Proof.
  intros H%utf8_decode_encode Hm. rewrite utf8_decode_bom in H.
  destruct (utf8_decode r) as [s'|]; [|done]. injection H as <-.
  by apply Hm.
Qed.

Lemma utf8_sig_decode_encode s bs :
  utf8_encode s = Some bs → no_leading_mark s →
  utf8_sig_decode bs = Some s.
Proof.
  intros H Hm.
  destruct (utf8_sig_decode_cases bs) as [(r & -> & _)|[-> _]].
  - by apply utf8_encode_mark in H.
  - by apply utf8_decode_encode.
Qed.

Lemma utf8_encode_app s t bs bt :
  utf8_encode s = Some bs → utf8_encode t = Some bt →
  utf8_encode (s ++ t) = Some (bs ++ bt).
Proof.
  revert bs. induction s as [|c s IH]; intros bs.
  - by intros [= <-].
  - cbn [utf8_encode app].
    destruct (utf8_encode_char c) as [cb|]; [|done].
    destruct (utf8_encode s) as [bs'|]; [|done]. intros [= <-] Ht.
    by rewrite (IH bs' eq_refl Ht), app_assoc.
Qed.

Lemma utf8_encode_app_inv s t bs :
  utf8_encode (s ++ t) = Some bs →
  ∃ b1 b2, utf8_encode s = Some b1 ∧ utf8_encode t = Some b2
           ∧ bs = b1 ++ b2.
Proof.
  revert bs. induction s as [|c s IH]; intros bs.
  - intros H. by exists [], bs.
  - cbn [utf8_encode app].
    destruct (utf8_encode_char c) as [cb|]; [|done].
    destruct (utf8_encode (s ++ t)) as [bs'|]; [|done]. intros [= <-].
    destruct (IH bs' eq_refl) as (b1 & b2 & -> & -> & ->).
    exists (cb ++ b1), b2. by rewrite app_assoc.
Qed.

(** The byte 0x0D stands for CR and for nothing else. *)
Lemma utf8_encode_char_cr c cb :
  utf8_encode_char c = Some cb → x0d ∈ cb → c = CR.
Proof.
  assert (Hhigh : ∀ x, 128 <= x < 256 → n2b x ≠ x0d).
  { intros x Hx E. pose proof (b2n_n2b x (proj2 Hx)) as H.
    rewrite E in H. vm_compute in H. lia. }
  unfold utf8_encode_char.
  destruct (c <? 128) eqn:E1.
  { intros [= <-] Hin%list_elem_of_singleton%(f_equal b2n).
    apply N.ltb_lt in E1. rewrite b2n_n2b in Hin by lia.
    exact (eq_sym Hin). }
  destruct (c <? 2048) eqn:E2; [|destruct (c <? 65536) eqn:E3;
    [destruct (is_surrogate c); [done|]|destruct (c <=? 1114111) eqn:E4;
      [|done]]];
    intros [= <-] Hin; exfalso;
    apply N.ltb_ge in E1;
    repeat (apply elem_of_cons in Hin as [Hin|Hin];
            [symmetry in Hin; revert Hin; apply Hhigh;
             try apply N.ltb_lt in E2; try apply N.ltb_lt in E3;
             try apply N.leb_le in E4;
             zify; Z.to_euclidean_division_equations; lia|]);
    by apply elem_of_nil in Hin.
Qed.

Lemma utf8_encode_no_cr s bs :
  utf8_encode s = Some bs → CR ∉ s → x0d ∉ bs.
Proof.
  revert bs. induction s as [|c s IH]; intros bs.
  - intros [= <-] _ ?%elem_of_nil. done.
  - cbn [utf8_encode].
    destruct (utf8_encode_char c) as [cb|] eqn:Ec; [|done].
    destruct (utf8_encode s) as [bs'|]; [|done].
    intros [= <-] [Hc Hs]%not_elem_of_cons [H|H]%elem_of_app.
    + by apply (utf8_encode_char_cr c cb Ec) in H.
    + by apply (IH bs' eq_refl Hs).
Qed.

End BytesFacts.

(** ** What a run does to the world *)

Section RunFacts.

Variable codecs : registry.
Implicit Types (p q : path) (raw nb : bytes) (w : world) (a : args).

Lemma bytes_eqb_refl (x : bytes) : bytes_eqb x x = true.
Proof. by apply bool_decide_eq_true. Qed.

(** Every way [process_file] can end. *)
Lemma process_file_cases p rf ag ck rs w :
  process_file codecs p rf ag ck rs w = (Return false, w, [])
  ∨ (∃ e, process_file codecs p rf ag ck rs w = (Raise e, w, []))
  ∨ ∃ raw text nb,
      read_bytes p w = Some raw
      ∧ is_potentially_text p (take HEAD_SIZE raw) = true
      ∧ decode_raw codecs raw rf = Decoded text
      ∧ utf8_encode (normalize_text text INDENT_SIZE true ag
                                    (is_makefile_like p)) = Some nb
      ∧ nb ≠ raw
      ∧ ((ck = true
          ∧ process_file codecs p rf ag ck rs w
            = (Return true, w, [Print ("NEEDS-FIX " +:+ p)]))
         ∨ (ck = false
            ∧ ∃ msg, write_error w p = Some msg
              ∧ process_file codecs p rf ag ck rs w
                = (Return false, w,
                   [WriteBytes p nb;
                    PrintErr ("ERROR writing " +:+ p +:+ ": " +:+ msg)]))
         ∨ (ck = false
            ∧ write_error w p = None
            ∧ process_file codecs p rf ag ck rs w
              = (Return true, World (<[p := nb]> (files w)) (write_error w),
                 [WriteBytes p nb] ++ (if rs then [GitAdd p] else [])
                 ++ [Print ("Fixed " +:+ p)]))).
Proof.
  unfold process_file.
  destruct (read_bytes p w) as [raw|] eqn:Hread; [|by left].
  destruct (is_potentially_text p (take HEAD_SIZE raw)) eqn:Htext;
    [|by left].
  cbn [negb].
  destruct (decode_raw codecs raw rf) as [text| |e] eqn:Hdec;
    [|by left|by right; left; exists e].
  unfold process_decoded.
  destruct (utf8_encode _) as [nb|] eqn:Henc; [|by right; left; eexists].
  destruct (bytes_eqb nb raw) eqn:Heq; [by left|].
  apply bytes_eqb_false in Heq. cbn [negb].
  right. right. exists raw, text, nb.
  do 5 (split; [first [assumption | reflexivity]|]).
  destruct ck; [left; split; reflexivity|]. right. unfold write_bytes.
  destruct (write_error w p) as [msg|] eqn:Hw.
  - left. split; [reflexivity|]. exists msg. split; reflexivity.
  - right. split; [reflexivity|]. split; reflexivity.
Qed.

(** A loop invariant: what every call of [process_file] keeps and every
    event it gives fulfils, the loop of [main] keeps and fulfils. *)
Lemma process_all_invariant a (I : world → Prop) (Q : event → Prop)
    ps any w :
  I w →
  (∀ p w0, p ∈ ps → listed p = true → I w0 →
     I (process_file codecs p (recode_from a) (aggressive_tabs a) (check a)
                     (restage a) w0).1.2
     ∧ Forall Q (process_file codecs p (recode_from a) (aggressive_tabs a)
                              (check a) (restage a) w0).2) →
  I (process_all codecs a ps any w).1.2
  ∧ Forall Q (process_all codecs a ps any w).2.
Proof.
  revert any w. induction ps as [|p ps IH]; intros any w Hw Hstep.
  - by split.
  - cbn [process_all]. destruct (String.prefix ".git/" p) eqn:Hp.
    + apply IH; [done|]. intros q w0 Hq. apply Hstep. by right.
    + destruct (Hstep p w) as [H1 H2];
        [left | by unfold listed; rewrite Hp | done |].
      destruct (process_file codecs p _ _ _ _ w) as [[r w1] t1].
      destruct r as [changed|e]; [|by split].
      destruct (IH (any || changed) w1) as [H3 H4]; [done | |].
      { intros q w0 Hq. apply Hstep. by right. }
      destruct (process_all codecs a ps (any || changed) w1) as [[r2 w2] t2].
      split; [done|]. simpl in *. by apply Forall_app.
Qed.

Lemma main_invariant a g (I : world → Prop) (Q : event → Prop) w :
  I w →
  (∀ line, Q (PrintErr line)) →
  (∀ ps p w0,
     list_tracked_files g (staged a) = Some ps →
     p ∈ ps → listed p = true → I w0 →
     I (process_file codecs p (recode_from a) (aggressive_tabs a) (check a)
                     (restage a) w0).1.2
     ∧ Forall Q (process_file codecs p (recode_from a) (aggressive_tabs a)
                              (check a) (restage a) w0).2) →
  I (main codecs a g w).1.2 ∧ Forall Q (main codecs a g w).2.
Proof.
  intros Hw Herr Hstep. unfold main.
  destruct (repo_root g) as [root|]; [|split; [done | by repeat constructor]].
  destruct (list_tracked_files g (staged a)) as [ps|] eqn:Hps; [|by split].
  destruct ps as [|p0 ps]; [by split|].
  destruct (process_all_invariant a I Q (p0 :: ps) false w Hw) as [H1 H2].
  { intros p w0. by apply Hstep. }
  destruct (process_all codecs a (p0 :: ps) false w) as [[r w'] t].
  by destruct r.
Qed.

End RunFacts.

(** ** Further laws of the file processor *)

(** X6: what a run writes and stages.  When git lists the paths [ps],
    every write and every [git add] of a run names a listed path outside
    [.git/], and [git add] is run only with [--restage] and never in a dry
    run. *)
Theorem X6_writes_name_listed_paths
    (codecs : registry) (a : args) (g : git) (w : world) (ps : list path) :
  list_tracked_files g (staged a) = Some ps →
  Forall (fun e => ∀ p, event_path e = Some p → p ∈ ps ∧ listed p = true)
         (main codecs a g w).2
  ∧ Forall (fun e => is_git_add e = true →
                     restage a = true ∧ check a = false)
           (main codecs a g w).2.
Proof.
  intros Hps.
  pose (Q := fun e : event =>
               (∀ p, event_path e = Some p → p ∈ ps ∧ listed p = true)
               ∧ (is_git_add e = true → restage a = true ∧ check a = false)).
  destruct (main_invariant codecs a g (fun _ => True) Q w) as [_ H2].
  - done.
  - intros line. unfold Q. by split.
  - intros ps' p w0 Hps' Hp Hl _.
    assert (ps' = ps) as -> by congruence.
    assert (QW : ∀ nb, Q (WriteBytes p nb)).
    { intros nb. split; [|done]. intros q [= <-]. by split. }
    assert (QP : ∀ line, Q (Print line)).
    { intros line. split; [|done]. by intros q [=]. }
    assert (QE : ∀ line, Q (PrintErr line)).
    { intros line. split; [|done]. by intros q [=]. }
    assert (QG : restage a = true → check a = false → Q (GitAdd p)).
    { intros Hrs Hck. split; [|done]. intros q [= <-]. by split. }
    split; [done|].
    destruct (process_file_cases codecs p (recode_from a) (aggressive_tabs a)
                (check a) (restage a) w0)
      as [->|[(e & ->)|(raw & text & nb & _ & _ & _ & _ & _ &
                         [(_ & ->)|[(_ & msg & _ & ->)|(Hck & _ & ->)]])]];
      cbn [fst snd].
    + apply List.Forall_nil.
    + apply List.Forall_nil.
    + apply List.Forall_cons; [apply QP | apply List.Forall_nil].
    + apply List.Forall_cons; [apply QW|].
      apply List.Forall_cons; [apply QE | apply List.Forall_nil].
    + apply List.Forall_cons; [apply QW|]. destruct (restage a) eqn:Hrs.
      * apply List.Forall_cons; [by apply QG|].
        apply List.Forall_cons; [apply QP | apply List.Forall_nil].
      * apply List.Forall_cons; [apply QP | apply List.Forall_nil].
  - split.
    + eapply Forall_impl; [exact H2|]. by intros e [? _].
    + eapply Forall_impl; [exact H2|]. by intros e [_ ?].
Qed.

Lemma X6_witness :
  (main small_registry write_args sample_git sample_world).2
  = [WriteBytes "a.txt" [x78; x0a]; GitAdd "a.txt"; Print "Fixed a.txt"]
  ∧ Forall (fun e => ∀ p, event_path e = Some p →
                          p ∈ ["a.txt"; "ok.txt"; "logo.png";
                               "missing.txt"]%string
                          ∧ listed p = true)
           (main small_registry write_args sample_git sample_world).2.
Proof.
  split; [by vm_compute|].
  exact (proj1 (X6_writes_name_listed_paths small_registry write_args
                  sample_git sample_world
                  ["a.txt"; "ok.txt"; "logo.png"; "missing.txt"]%string
                  eq_refl)).
Defined.

(** X7: what is written.  Every write of a run is of valid UTF-8 without
    any CR byte and with a final LF byte. *)
Theorem X7_written_bytes_are_lf_utf8
    (codecs : registry) (a : args) (g : git) (w : world) :
  Forall (fun e => match e with
                   | WriteBytes _ data => lf_utf8 data
                   | _ => True
                   end)
         (main codecs a g w).2.
Proof.
  apply (main_invariant codecs a g (fun _ => True)); [done..|].
  intros ps p w0 _ _ _ _. split; [done|].
  destruct (process_file_cases codecs p (recode_from a) (aggressive_tabs a)
              (check a) (restage a) w0)
    as [->|[(e & ->)|(raw & text & nb & _ & _ & _ & Henc & _ & Hcase)]];
    [by constructor..|].
  assert (Hnb : lf_utf8 nb).
  { split; [by rewrite (utf8_decode_encode _ _ Henc)|]. split.
    - eapply utf8_encode_no_cr; [exact Henc | apply normalize_text_no_cr].
    - pose proof (normalize_text_ends_lf INDENT_SIZE true (aggressive_tabs a)
                    (is_makefile_like p) text) as [t Ht]%endswith_spec.
      rewrite Ht in Henc.
      apply utf8_encode_app_inv in Henc as (b1 & b2 & _ & [= <-] & ->).
      by exists b1. }
  destruct Hcase as [(_ & ->)|[(_ & msg & _ & ->)|(_ & _ & ->)]];
    cbn [snd].
  - apply List.Forall_cons; [done | apply List.Forall_nil].
  - apply List.Forall_cons; [exact Hnb|].
    apply List.Forall_cons; [done | apply List.Forall_nil].
  - apply List.Forall_cons; [exact Hnb|].
    destruct (restage a); repeat (apply List.Forall_cons; [done|]);
      apply List.Forall_nil.
Qed.

(** X8: the exit code.  A run that ends normally exits with 0, 1 or 2: with
    2 exactly when it is not inside a repository, and with 1 only in a dry
    run.  A run that rewrites files inside a repository exits with 0, also
    when writes have failed. *)
Theorem X8_exit_codes
    (codecs : registry) (a : args) (g : git) (w : world) (rc : Z) :
  (main codecs a g w).1.1 = Return rc →
  (rc = 2%Z ↔ repo_root g = None)
  ∧ (rc = 1%Z → check a = true)
  ∧ (rc = 0%Z ∨ rc = 1%Z ∨ rc = 2%Z)
  ∧ (check a = false → repo_root g ≠ None → rc = 0%Z).
Proof.
  unfold main. destruct (repo_root g) as [root|].
  2:{ intros [= <-]. by repeat split; auto. }
  destruct (list_tracked_files g (staged a)) as [[|p ps]|]; [| |done].
  { intros [= <-]. repeat split; auto; done. }
  destruct (process_all codecs a (p :: ps) false w) as [[[any|e] w'] t];
    [|done].
  cbn [fst]. destruct (check a); destruct any; intros [= <-];
    repeat split; auto; done.
Qed.

Lemma X8_witness :
  (main small_registry write_args
        (Git (Some "/repo"%string) (Some ["ro.txt"; "a.txt"]%string) None)
        sample_world).1.1 = Return 0%Z
  ∧ (main small_registry write_args
          (Git (Some "/repo"%string) (Some ["ro.txt"; "a.txt"]%string) None)
          sample_world).2
    = [WriteBytes "ro.txt" [x78; x0a];
       PrintErr "ERROR writing ro.txt: Permission denied";
       WriteBytes "a.txt" [x78; x0a]; GitAdd "a.txt"; Print "Fixed a.txt"].
Proof.
  assert (E : ∃ rc,
             (main small_registry write_args
                   (Git (Some "/repo"%string)
                        (Some ["ro.txt"; "a.txt"]%string) None)
                   sample_world).1.1 = Return rc) by (by vm_compute; eexists).
  destruct E as [rc E].
  destruct (X8_exit_codes small_registry write_args _ sample_world rc E)
    as (_ & _ & _ & H).
  split.
  - rewrite E. f_equal. by apply H.
  - by vm_compute.
Defined.

(** ** Files already in order, and files never in order *)

Section FileFacts.

Variable codecs : registry.
Implicit Types (p q : path) (raw nb : bytes) (w : world) (text nt : str).

(** A file that holds the UTF-8 form of a text in normal form is passed
    over in silence, whatever the options (the aggressive flag being the
    one the normal form is for). *)
Lemma silent_if_normal_bytes p w nb nt ag :
  read_bytes p w = Some nb →
  utf8_encode nt = Some nb →
  normalize_text nt INDENT_SIZE true ag (is_makefile_like p) = nt →
  no_leading_mark nt →
  ∀ rf ck rs, process_file codecs p rf ag ck rs w = (Return false, w, []).
Proof.
  intros Hread Henc Hnorm Hmark rf ck rs. unfold process_file.
  rewrite Hread. destruct (is_potentially_text p _); [|done]. cbn [negb].
  unfold decode_raw. rewrite (utf8_sig_decode_encode nt nb Henc Hmark).
  unfold process_decoded. by rewrite Hnorm, Henc, bytes_eqb_refl.
Qed.

(** What is decoded from a file without a mark is what UTF-8 gives. *)
Lemma decode_raw_plain raw text rf :
  utf8_decode raw = Some text → (∀ r, raw ≠ BOM_UTF8 ++ r) →
  decode_raw codecs raw rf = Decoded text.
Proof.
  intros Hd Hb. unfold decode_raw.
  destruct (utf8_sig_decode_cases raw) as [(r & -> & _)|[-> _]].
  - by destruct (Hb r).
  - by rewrite Hd.
Qed.

(** A silent [False] does not depend on the mode. *)
Lemma silent_any_mode p rf ag ck rs ck' rs' w :
  process_file codecs p rf ag ck rs w = (Return false, w, []) →
  process_file codecs p rf ag ck' rs' w = (Return false, w, []).
Proof.
  unfold process_file.
  destruct (read_bytes p w) as [raw|]; [|done].
  destruct (negb (is_potentially_text p (take HEAD_SIZE raw))); [done|].
  destruct (decode_raw codecs raw rf) as [text| |e]; [|done..].
  unfold process_decoded. destruct (utf8_encode _) as [nb|]; [|done].
  destruct (negb (bytes_eqb nb raw)); [|done].
  destruct ck; [done|]. unfold write_bytes.
  destruct (write_error w p); [done|]. by destruct rs.
Qed.

End FileFacts.

(** X9: a second run finds nothing to do.  When [process_file] has written
    a file (the normalised text not beginning with U+FEFF), the file holds
    the new bytes, and processing it again, in either mode and with any
    fallback encoding, returns [False] in silence and leaves the world as
    it is. *)
Theorem X9_second_run_is_silent
    (codecs : registry) (p : path) (rf : option string)
    (aggressive_tabs restage : bool) (w : world)
    (raw : bytes) (text : str) (new_bytes : bytes) :
  read_bytes p w = Some raw →
  is_potentially_text p (take HEAD_SIZE raw) = true →
  decode_raw codecs raw rf = Decoded text →
  utf8_encode (normalize_text text INDENT_SIZE true aggressive_tabs
                              (is_makefile_like p)) = Some new_bytes →
  new_bytes ≠ raw →
  write_error w p = None →
  no_leading_mark (normalize_text text INDENT_SIZE true aggressive_tabs
                                  (is_makefile_like p)) →
  ∃ w' t,
    process_file codecs p rf aggressive_tabs false restage w
    = (Return true, w', t)
    ∧ read_bytes p w' = Some new_bytes
    ∧ ∀ rf' check_only' restage',
        process_file codecs p rf' aggressive_tabs check_only' restage' w'
        = (Return false, w', []).
Proof.
  intros Hread Htext Hdec Henc Hne Hw Hmark.
  eexists _, _. split; [|split].
  - rewrite (process_file_decoded _ _ _ _ _ _ _ _ _ Hread Htext Hdec).
    unfold process_decoded. rewrite Henc.
    rewrite (proj2 (bytes_eqb_false _ _) Hne). cbn [negb].
    unfold write_bytes. rewrite Hw. reflexivity.
  - unfold read_bytes. cbn [files]. by rewrite lookup_insert_eq.
  - eapply silent_if_normal_bytes; [|exact Henc| |exact Hmark].
    + unfold read_bytes. cbn [files]. by rewrite lookup_insert_eq.
    + apply normalize_text_idem.
Qed.

Lemma X9_witness :
  ∃ w' t,
    process_file small_registry "legacy.txt" (Some "latin-1") false false
                 false sample_world
    = (Return true, w', t)
    ∧ read_bytes "legacy.txt" w' = Some [xc3; xa9; x0a]
    ∧ process_file small_registry "legacy.txt" None false true false w'
      = (Return false, w', []).
Proof.
  destruct (X9_second_run_is_silent small_registry "legacy.txt"
              (Some "latin-1") false false sample_world [xe9; x0a]
              [233; 10] [xc3; xa9; x0a]
              ltac:(by vm_compute) ltac:(by vm_compute) ltac:(by vm_compute)
              ltac:(by vm_compute) ltac:(done) ltac:(by vm_compute)
              ltac:(by vm_compute))
    as (w' & t & H1 & H2 & H3).
  exists w', t. split; [exact H1|]. split; [exact H2 | apply H3].
Defined.

(** X10: the files that are left alone.  A readable file that passes for
    text and is valid UTF-8 without a byte-order mark is passed over in
    silence exactly when its text is in normal form (for the aggressive
    flag given and for tabs kept in makefiles); otherwise it is reported or
    written. *)
Theorem X10_unchanged_iff_normal_form
    (codecs : registry) (p : path) (rf : option string)
    (aggressive_tabs check_only restage : bool) (w : world)
    (raw : bytes) (text : str) :
  read_bytes p w = Some raw →
  is_potentially_text p (take HEAD_SIZE raw) = true →
  utf8_decode raw = Some text →
  (∀ r, raw ≠ BOM_UTF8 ++ r) →
  process_file codecs p rf aggressive_tabs check_only restage w
  = (Return false, w, [])
  ↔ normal_form true aggressive_tabs (is_makefile_like p) text.
Proof.
  intros Hread Htext Hd Hb.
  pose proof (decode_raw_plain codecs raw text rf Hd Hb) as Hdec.
  rewrite (process_file_decoded _ _ _ _ _ _ _ _ _ Hread Htext Hdec).
  split.
  - intros H.
    cut (normalize_text text INDENT_SIZE true aggressive_tabs
                        (is_makefile_like p) = text).
    { intros <-. apply normalize_text_normal_form. }
    unfold process_decoded in H.
    destruct (utf8_encode _) as [nb|] eqn:Henc; [|done].
    destruct (bytes_eqb nb raw) eqn:Heq.
    + apply bool_decide_eq_true in Heq as ->.
      apply utf8_decode_encode in Henc. congruence.
    + cbn [negb] in H. destruct check_only; [done|].
      unfold write_bytes in H. destruct (write_error w p); [done|].
      by destruct restage.
  - intros H%(normal_form_fixed INDENT_SIZE). unfold process_decoded.
    by rewrite H, (utf8_encode_decode raw text Hd), bytes_eqb_refl.
Qed.

Lemma X10_witness :
  process_file small_registry "ok.txt" None false false true sample_world
  = (Return false, sample_world, [])
  ∧ normal_form true false (is_makefile_like "ok.txt") (txt "ok" ++ [LF]).
Proof.
  pose proof (X10_unchanged_iff_normal_form small_registry "ok.txt" None
                false false true sample_world [x6f; x6b; x0a]
                (txt "ok" ++ [LF])
                ltac:(by vm_compute) ltac:(by vm_compute)
                ltac:(by vm_compute) ltac:(by intros r [=])) as H.
  assert (E : process_file small_registry "ok.txt" None false false true
                           sample_world = (Return false, sample_world, []))
    by by vm_compute.
  split; [exact E | by apply H].
Defined.





(** ** The extension set and the file list *)

Section ListingFacts.

Lemma lower_ascii_not_T c : lower_ascii c ≠ "T"%char.
Proof. destruct c as [[] [] [] [] [] [] [] []]; by vm_compute. Qed.

Lemma list_ascii_of_lower s :
  list_ascii_of_string (lower s) = map lower_ascii (list_ascii_of_string s).
Proof. unfold lower. apply list_ascii_of_string_of_list_ascii. Qed.

Lemma lower_not_glTF s : lower s ≠ ".glTF"%string.
Proof.
  intros H%(f_equal list_ascii_of_string). rewrite list_ascii_of_lower in H.
  destruct (list_ascii_of_string s) as [|c0 [|c1 [|c2 [|c3 l]]]];
    try discriminate H.
  injection H as _ _ _ H _. by apply lower_ascii_not_T in H.
Qed.

Lemma split_bytes_nonempty sep s : split_bytes sep s ≠ [].
Proof.
  destruct s as [|c s]; simpl; [done|].
  destruct (Byte.eqb c sep); [done|]. by destruct (split_bytes sep s).
Qed.

Lemma split_bytes_no_sep sep s :
  Forall (fun l => sep ∉ l) (split_bytes sep s).
Proof.
  induction s as [|c s IH]; simpl.
  - repeat constructor. by intros ?%elem_of_nil.
  - destruct (Byte.eqb c sep) eqn:E.
    + constructor; [by intros ?%elem_of_nil | done].
    + destruct (split_bytes sep s) as [|l ls] eqn:Es;
        [by apply split_bytes_nonempty in Es|].
      inversion IH as [|? ? Hl Hls]; subst. constructor; [|done].
      intros [->|?]%elem_of_cons; [|done].
      by rewrite (Byte.byte_dec_lb (eq_refl c)) in E.
Qed.

Lemma split_bytes_item sep i rest :
  sep ∉ i →
  split_bytes sep (i ++ sep :: rest) = i :: split_bytes sep rest.
Proof.
  induction i as [|c i IH]; intros Hi.
  - simpl. by rewrite (Byte.byte_dec_lb (eq_refl sep)).
  - apply not_elem_of_cons in Hi as [Hc Hi]. cbn [app split_bytes].
    destruct (Byte.eqb c sep) eqn:E.
    + apply Byte.byte_dec_bl in E. congruence.
    + by rewrite (IH Hi).
Qed.

End ListingFacts.

(** X13: an entry that never matches.  The extension of a path is
    lower-cased before it is looked up in [BINARY_EXTS], so the entry
    [".glTF"] of that set excludes no file at all: a file named with that
    very extension is classified by its content alone. *)
Theorem X13_glTF_entry_never_matches (p : path) (head : bytes) :
  lower (suffix p) ≠ ".glTF"%string
  ∧ (suffix p = ".glTF"%string →
     is_potentially_text p head = negb (looks_binary_bytes head)).
Proof.
  split; [apply lower_not_glTF|].
  intros H. unfold is_potentially_text. rewrite H.
  by replace (bool_decide (lower ".glTF" ∈ BINARY_EXTS)) with false
    by by vm_compute.
Qed.

Lemma X13_witness :
  suffix "assets/scene.glTF" = ".glTF"%string
  ∧ is_potentially_text "assets/scene.glTF" [x7b; x7d] = true.
Proof.
  assert (H : suffix "assets/scene.glTF" = ".glTF"%string) by by vm_compute.
  split; [exact H|].
  by rewrite (proj2 (X13_glTF_entry_never_matches "assets/scene.glTF"
                       [x7b; x7d]) H).
Defined.

(** X14: the file list.  The items [list_tracked_files] takes from git's
    output are never empty and hold no NUL byte; and from an output that is
    a sequence of non-empty, NUL-free names, each followed by a NUL byte,
    it takes exactly those names, in order. *)
Theorem X14_tracked_items (out : bytes) (items : list bytes) :
  Forall (fun i => i ≠ [] ∧ x00 ∉ i) (tracked_items out)
  ∧ (Forall (fun i => i ≠ [] ∧ x00 ∉ i) items →
     tracked_items (z_output items) = items).
Proof.
  split.
  - unfold tracked_items. apply Forall_forall.
    intros i [Hi Hne]%list_elem_of_In%filter_In.
    split; [by destruct i|].
    pose proof (split_bytes_no_sep x00 out) as H.
    rewrite Forall_forall in H. by apply H, list_elem_of_In.
  - unfold tracked_items, z_output. induction 1 as [|i l [Hne Hz] _ IH].
    + done.
    + cbn [flat_map]. rewrite <- app_assoc. cbn [app].
      rewrite (split_bytes_item x00 i _ Hz). cbn [List.filter].
      rewrite IH. by destruct i.
Qed.

Lemma X14_witness :
  tracked_items [x61; x00; x62; x2f; x63; x00] = [[x61]; [x62; x2f; x63]].
Proof.
  refine (proj2 (X14_tracked_items [] [[x61]; [x62; x2f; x63]]) _).
  repeat (apply List.Forall_cons;
          [split; [done | apply (bool_decide_unpack _); by vm_compute]|]).
  apply List.Forall_nil.
Defined.

(** ** After a run *)

Section FollowUp.

Variable codecs : registry.
Implicit Types (p q : path) (raw nb : bytes) (w : world) (a : args).

(** Whether a file is quiet depends on its own bytes only. *)
Lemma quiet_local a w1 w2 p :
  files w1 !! p = files w2 !! p → quiet codecs a w1 p → quiet codecs a w2 p.
Proof.
  unfold quiet, process_file, read_bytes. intros <-.
  destruct (files w1 !! p) as [raw|]; [|done].
  destruct (negb (is_potentially_text p (take HEAD_SIZE raw))); [done|].
  destruct (decode_raw codecs raw (recode_from a)) as [text| |e]; [|done..].
  unfold process_decoded. destruct (utf8_encode _) as [nb|]; [|done].
  by destruct (negb (bytes_eqb nb raw)).
Qed.

(** The loop of a run that rewrites, writes without failure and returns
    leaves every file it was given quiet. *)
Lemma process_all_settles a :
  check a = false →
  ∀ ps any w0 r w1 t,
    (∀ p, p ∈ ps → write_error w0 p = None) →
    (∀ p raw text,
       p ∈ ps → read_bytes p w0 = Some raw →
       decode_raw codecs raw (recode_from a) = Decoded text →
       no_leading_mark (normalize_text text INDENT_SIZE true
                                       (aggressive_tabs a)
                                       (is_makefile_like p))) →
    process_all codecs a ps any w0 = (Return r, w1, t) →
    (∀ p, p ∈ ps → listed p = true → quiet codecs a w1 p)
    ∧ (∀ q, q ∉ ps → files w1 !! q = files w0 !! q)
    ∧ write_error w1 = write_error w0.
Proof.
  intros Hck. induction ps as [|p ps IH]; intros any w0 r w1 t Hwr Hmk Hrun.
  { injection Hrun as _ <- _. split; [by intros p ?%elem_of_nil|]. by split. }
  cbn [process_all] in Hrun.
  destruct (String.prefix ".git/" p) eqn:Hp.
  { destruct (IH any w0 r w1 t) as (H1 & H2 & H3); [| |done|].
    - intros q Hq. apply Hwr. by right.
    - intros q raw text Hq. apply Hmk. by right.
    - split; [|split; [|done]].
      + intros q [->|Hq]%elem_of_cons Hl; [|by apply H1].
        unfold listed in Hl. by rewrite Hp in Hl.
      + intros q [_ Hq]%not_elem_of_cons. by apply H2. }
  (* the head is processed: what it leaves *)
  assert (Hhead : ∃ changed wm t1,
             process_file codecs p (recode_from a) (aggressive_tabs a)
                          (check a) (restage a) w0 = (Return changed, wm, t1)
             ∧ quiet codecs a wm p
             ∧ write_error wm = write_error w0
             ∧ (∀ q, q ≠ p → files wm !! q = files w0 !! q)
             ∧ (∀ raw text,
                  read_bytes p wm = Some raw →
                  decode_raw codecs raw (recode_from a) = Decoded text →
                  no_leading_mark (normalize_text text INDENT_SIZE true
                                                  (aggressive_tabs a)
                                                  (is_makefile_like p)))).
  { destruct (process_file_cases codecs p (recode_from a) (aggressive_tabs a)
                (check a) (restage a) w0)
      as [E|[(e & E)|(raw & text & nb & Hread & Htext & Hdec & Henc & Hne &
                       [(Hck' & _)|[(_ & msg & Hmsg & _)|(_ & Hw & E)]])]].
    - exists false, w0, []. split; [done|]. split.
      { unfold quiet. by eapply silent_any_mode. }
      split; [done|]. split; [done|]. intros raw text. apply Hmk. left.
    - rewrite E in Hrun. discriminate Hrun.
    - congruence.
    - rewrite (Hwr p) in Hmsg; [done | left].
    - pose proof (Hmk p raw text ltac:(left) Hread Hdec) as Hmark.
      assert (Hnew : read_bytes p (World (<[p:=nb]> (files w0))
                                         (write_error w0)) = Some nb).
      { unfold read_bytes. cbn [files]. by rewrite lookup_insert_eq. }
      eexists _, _, _. split; [exact E|]. split.
      { unfold quiet.
        eapply silent_if_normal_bytes;
          [exact Hnew | exact Henc | apply normalize_text_idem | exact Hmark]. }
      split; [done|]. split.
      { intros q Hq. cbn [files]. by rewrite lookup_insert_ne. }
      intros raw' text' Hread' Hdec'. rewrite Hnew in Hread'.
      injection Hread' as <-. unfold decode_raw in Hdec'.
      rewrite (utf8_sig_decode_encode _ _ Henc Hmark) in Hdec'.
      injection Hdec' as <-. by rewrite normalize_text_idem. }
  destruct Hhead as (changed & wm & t1 & E & Hq & Hwe & Hfr & Hmk').
  rewrite E in Hrun.
  destruct (process_all codecs a ps (any || changed) wm)
    as [[r2 w2] t2] eqn:Erest.
  injection Hrun as -> -> _.
  destruct (IH (any || changed) wm r w1 t2) as (H1 & H2 & H3); [| |done|].
  - intros q Hq'. rewrite Hwe. apply Hwr. by right.
  - intros q raw text Hq' Hread Hdec.
    destruct (decide (q = p)) as [->|Hne]; [by eapply Hmk'|].
    apply (Hmk q raw text); [by right | | done].
    unfold read_bytes in *. by rewrite <- Hfr.
  - split; [|split].
    + intros q [->|Hq']%elem_of_cons Hl; [|by apply H1].
      destruct (decide (p ∈ ps)) as [Hin|Hout]; [by apply H1|].
      eapply quiet_local; [|exact Hq]. symmetry. by apply H2.
    + intros q [Hne Hq']%not_elem_of_cons. rewrite H2 by done. by apply Hfr.
    + by rewrite H3.
Qed.

(** Over quiet files the loop of a dry run does nothing. *)
Lemma process_all_quiet a ps any w :
  (∀ p, p ∈ ps → listed p = true → quiet codecs a w p) →
  process_all codecs (as_check a) ps any w = (Return any, w, []).
Proof.
  revert any. induction ps as [|p ps IH]; intros any Hq; [done|].
  cbn [process_all]. destruct (String.prefix ".git/" p) eqn:Hp.
  - apply IH. intros q Hin. apply Hq. by right.
  - change (process_file codecs p (recode_from (as_check a))
              (aggressive_tabs (as_check a)) (check (as_check a))
              (restage (as_check a)) w)
      with (process_file codecs p (recode_from a) (aggressive_tabs a) true
              (restage a) w).
    rewrite (Hq p); [|left | by unfold listed; rewrite Hp].
    rewrite orb_false_r, IH; [done|].
    intros q Hin. apply Hq. by right.
Qed.

End FollowUp.

(** X15: after a run, a dry run passes.  When a run that rewrites files
    comes through the list git gives, no write fails and no normalised text
    begins with U+FEFF, a dry run with the same options in the world that
    run leaves exits with 0, prints nothing and changes nothing. *)
Theorem X15_check_passes_after_run
    (codecs : registry) (a : args) (g : git) (w : world)
    (root : path) (ps : list path) (rc : Z) :
  check a = false →
  repo_root g = Some root →
  list_tracked_files g (staged a) = Some ps →
  (∀ p, p ∈ ps → write_error w p = None) →
  (∀ p raw text,
     p ∈ ps → read_bytes p w = Some raw →
     decode_raw codecs raw (recode_from a) = Decoded text →
     no_leading_mark (normalize_text text INDENT_SIZE true (aggressive_tabs a)
                                     (is_makefile_like p))) →
  (main codecs a g w).1.1 = Return rc →
  main codecs (as_check a) g (main codecs a g w).1.2
  = (Return 0%Z, (main codecs a g w).1.2, []).
Proof.
  intros Hck Hroot Hps Hwr Hmk Hrun.
  assert (Hps' : list_tracked_files g (staged (as_check a)) = Some ps)
    by exact Hps.
  unfold main in *. rewrite Hroot, Hps in Hrun |- *. rewrite Hps'.
  destruct ps as [|p0 ps]; [done|].
  destruct (process_all codecs a (p0 :: ps) false w) as [[r w1] t] eqn:E.
  destruct r as [any|e]; [|done]. cbn [fst snd].
  destruct (process_all_settles codecs a Hck (p0 :: ps) false w any w1 t
              Hwr Hmk E) as (Hq & _ & _).
  by rewrite (process_all_quiet codecs a (p0 :: ps) false w1 Hq).
Qed.

Local Ltac known_file Hread Hdec content decoded :=
  let Hr := fresh in
  let Hd := fresh in
  match type of Hread with
  | read_bytes ?p ?w = _ =>
      assert (Hr : read_bytes p w = content) by (by vm_compute);
      rewrite Hr in Hread
  end;
  first
    [ discriminate Hread
    | injection Hread as <-;
      match type of Hdec with
      | decode_raw ?c ?r _ = ?d =>
          assert (Hd : decode_raw c r None = Decoded decoded)
            by (by vm_compute);
          change (decode_raw c r None = d) in Hdec;
          rewrite Hd in Hdec
      end;
      injection Hdec as <-; by vm_compute ].

Lemma X15_witness :
  main small_registry (as_check write_args) sample_git
       (main small_registry write_args sample_git sample_world).1.2
  = (Return 0%Z,
     (main small_registry write_args sample_git sample_world).1.2, []).
Proof.
  apply (X15_check_passes_after_run small_registry write_args sample_git
           sample_world "/repo"%string
           ["a.txt"; "ok.txt"; "logo.png"; "missing.txt"]%string 0%Z
           eq_refl eq_refl eq_refl).
  - intros p Hp.
    repeat (apply elem_of_cons in Hp as [->|Hp]; [by vm_compute|]).
    by apply elem_of_nil in Hp.
  - intros p raw text Hp Hread Hdec.
    apply elem_of_cons in Hp as [->|Hp].
    { known_file Hread Hdec (Some [x78; x20; x0a]) (txt "x " ++ [LF]). }
    apply elem_of_cons in Hp as [->|Hp].
    { known_file Hread Hdec (Some [x6f; x6b; x0a]) (txt "ok" ++ [LF]). }
    apply elem_of_cons in Hp as [->|Hp].
    { known_file Hread Hdec (Some (@nil byte)) (@nil char). }
    apply elem_of_cons in Hp as [->|Hp].
    { known_file Hread Hdec (@None bytes) (@nil char). }
    by apply elem_of_nil in Hp.
  - by vm_compute.
Defined.

(** ** The loop, piece by piece *)

Section LoopFacts.

Variable codecs : registry.

(** The loop over a list in two parts is the loop over the first part and,
    unless that raised, the loop over the second part from where the first
    one ended. *)
Lemma process_all_app a ps1 ps2 any w :
  process_all codecs a (ps1 ++ ps2) any w
  = match process_all codecs a ps1 any w with
    | (Return any1, w1, t1) =>
        match process_all codecs a ps2 any1 w1 with
        | (r, w2, t2) => (r, w2, t1 ++ t2)
        end
    | (Raise e, w1, t1) => (Raise e, w1, t1)
    end.
Proof.
  revert any w. induction ps1 as [|p ps1 IH]; intros any w.
  - cbn [app process_all].
    by destruct (process_all codecs a ps2 any w) as [[r w2] t2].
  - cbn [app process_all]. destruct (String.prefix ".git/" p); [apply IH|].
    destruct (process_file codecs p _ _ _ _ w) as [[[changed|e] w1] t1];
      [|done].
    rewrite IH.
    destruct (process_all codecs a ps1 (any || changed) w1)
      as [[[any1|e] w2] t2]; [|done].
    destruct (process_all codecs a ps2 any1 w2) as [[r w3] t3].
    by rewrite app_assoc.
Qed.

End LoopFacts.

(** X16: an exception ends the run where it is.  The loop of [main] over a
    list in two parts is the loop over the first part followed by the loop
    over the second; and when a file makes [process_file] raise, the run
    ends with that exception, the files before it stay as the run left
    them (written, staged and reported), and no file after it is
    processed. *)
Theorem X16_exception_ends_the_run
    (codecs : registry) (a : args) (before after : list path) (p : path)
    (any any1 : bool) (w w1 : world) (t1 : list event) (e : exn) :
  process_all codecs a before any w = (Return any1, w1, t1) →
  listed p = true →
  (process_file codecs p (recode_from a) (aggressive_tabs a) (check a)
                (restage a) w1).1.1 = Raise e →
  process_all codecs a (before ++ p :: after) any w = (Raise e, w1, t1)
  ∧ ∀ ps1 ps2 any0 w0,
      process_all codecs a (ps1 ++ ps2) any0 w0
      = match process_all codecs a ps1 any0 w0 with
        | (Return any', w', t') =>
            match process_all codecs a ps2 any' w' with
            | (r, w2, t2) => (r, w2, t' ++ t2)
            end
        | (Raise e', w', t') => (Raise e', w', t')
        end.
Proof.
  intros Hbefore Hl Hraise. split; [|apply process_all_app].
  rewrite process_all_app, Hbefore. cbn [process_all].
  unfold listed in Hl. apply negb_true_iff in Hl. rewrite Hl.
  destruct (process_file_cases codecs p (recode_from a) (aggressive_tabs a)
              (check a) (restage a) w1)
    as [E|[(e' & E)|(raw & text & nb & _ & _ & _ & _ & _ &
                      [(_ & E)|[(_ & msg & _ & E)|(_ & _ & E)]])]];
    rewrite E in Hraise |- *; try discriminate Hraise.
  injection Hraise as ->. by rewrite app_nil_r.
Qed.

Lemma X16_witness :
  process_all small_registry (Args false false false (Some "cp1251") false)
              (["a.txt"]%string ++ "legacy.txt"%string :: ["empty.txt"]%string)
              false sample_world
  = (Raise (LookupError "cp1251"),
     World (<["a.txt"%string := [x78; x0a]]> sample_files)
           (write_error sample_world),
     [WriteBytes "a.txt" [x78; x0a]; Print "Fixed a.txt"]).
Proof.
  exact (proj1 (X16_exception_ends_the_run small_registry
                  (Args false false false (Some "cp1251") false)
                  ["a.txt"]%string ["empty.txt"]%string "legacy.txt"
                  false true sample_world
                  (World (<["a.txt"%string := [x78; x0a]]> sample_files)
                         (write_error sample_world))
                  [WriteBytes "a.txt" [x78; x0a]; Print "Fixed a.txt"]
                  (LookupError "cp1251")
                  ltac:(by vm_compute) ltac:(by vm_compute)
                  ltac:(by vm_compute))).
Defined.

(** * Dry runs and fallback encodings *)

(** ** The escape codec on samples

    What [bytes.decode("raw_unicode_escape")] gives for these inputs. *)

Lemma raw_unicode_escape_samples :
  raw_unicode_escape_decode surrogate_escape = Some [55296; 255]
  ∧ raw_unicode_escape_decode [x5c; x5c; x75; x30; x30; x34; x31]
    = Some [92; 92; 117; 48; 48; 52; 49]
  ∧ raw_unicode_escape_decode [x61; x5c] = Some [97; 92]
  ∧ raw_unicode_escape_decode [x5c; x78] = Some [92; 120]
  ∧ raw_unicode_escape_decode [x5c; x75; x31; x32] = None
  ∧ raw_unicode_escape_decode
      [x5c; x55; x30; x30; x31; x31; x30; x30; x30; x30] = None
  ∧ raw_unicode_escape_decode
      [x5c; x55; x30; x30; x30; x31; x46; x36; x30; x30] = Some [128512].
Proof. by vm_compute. Qed.

(** ** What a dry run reports *)

Section DryRunFacts.

Variable codecs : registry.
Implicit Types (p : path) (raw nb : bytes) (w : world) (a : args).







End DryRunFacts.

(** ** The laws of dry runs and of fallback decoding *)






